(** * CredentialList.jsx: the credential list screen of the AWX console

    A shallow embedding of
    [awx/ui_next/src/screens/Credential/CredentialList/CredentialList.jsx]:
    the selection handlers, the derived flags, the list-fetch and the
    deletion workflows and the pagination adjustment that follows a deletion.

    The component is a React function component.  Its handlers are closures
    over the values of one render (the [useState] cells and the current
    location); what they write goes to the state cells and is seen by the
    next render only.  The embedding keeps the two apart: a handler takes the
    values ([Hooks], [Location]) of the render it was created in and is a
    computation on the [World].

    The utilities [@util/qs] and [@util/useRequest] and the API client are
    not part of this file of the repository; they are modelled from the
    specification, and the backend is a parameter. *)

From Stdlib Require Import ZArith Lia Bool Ascii String DecimalString DecimalZ.
From stdpp Require Import base option list gmap strings.

Local Open Scope Z_scope.

(** ** The query-string utility ([@util/qs]) *)

Module Qs.

(** The pagination and sort descriptor of the spec's data model. *)
Record QueryDescriptor : Type := {
  page : Z;
  page_size : Z;
  order_by : string
}.

(** What the second argument of [replaceParams] may name. *)
Record PartialParams : Type := {
  new_page : option Z;
  new_page_size : option Z;
  new_order_by : option string
}.

Record QSConfig : Type := {
  namespace : string;
  defaultParams : QueryDescriptor
}.

(** A descriptor is valid when [page >= 1] and [page_size > 0]. *)
Definition valid (d : QueryDescriptor) : Prop := 1 <= page d ∧ 0 < page_size d.

(** *** Text helpers

    The JavaScript built-ins and the string cutting that the model of the
    utility below is written with. *)

(** [String(n)] for an integer [n]: decimal digits, [-] for a negative one. *)
Definition showInt (z : Z) : string := NilZero.string_of_int (Z.to_int z).

(** Reading a decimal integer back; [None] stands for [NaN]. *)
Definition parseInt (s : string) : option Z := Z.of_int <$> NilZero.int_of_string s.

Definition hexDigit (n : N) : ascii :=
  if (n <? 10)%N then ascii_of_N (48 + n) else ascii_of_N (55 + n).

Definition unhexDigit (c : ascii) : option N :=
  let n := N_of_ascii c in
  if (48 <=? n)%N && (n <=? 57)%N then Some (n - 48)%N
  else if (65 <=? n)%N && (n <=? 70)%N then Some (n - 55)%N
  else if (97 <=? n)%N && (n <=? 102)%N then Some (n - 87)%N
  else None.

(** The characters [encodeURIComponent] leaves as they are:
    [A-Z a-z 0-9 - _ . ! ~ * ' ( )]. *)
Definition isUnreserved (c : ascii) : bool :=
  let n := N_of_ascii c in
  ((48 <=? n)%N && (n <=? 57)%N) || ((65 <=? n)%N && (n <=? 90)%N)
  || ((97 <=? n)%N && (n <=? 122)%N)
  || existsb (N.eqb n) [45; 95; 46; 33; 126; 42; 39; 40; 41]%N.

Definition percent : ascii := "%"%char.

Definition escapeChar (c : ascii) : string :=
  if isUnreserved c then String c EmptyString
  else
    let n := N_of_ascii c in
    String percent (String (hexDigit (n / 16)) (String (hexDigit (n mod 16)) EmptyString)).

(** [encodeURIComponent] on a byte string. *)
Fixpoint encodeURIComponent (s : string) : string :=
  match s with
  | EmptyString => EmptyString
  | String c rest => escapeChar c +:+ encodeURIComponent rest
  end.

Definition unescape (h l : ascii) : option ascii :=
  match unhexDigit h, unhexDigit l with
  | Some a, Some b => Some (ascii_of_N (16 * a + b))
  | _, _ => None
  end.

(** [decodeURIComponent] on a byte string.  A [%] that is not followed by
    two hexadecimal digits is kept as it is (the built-in throws there). *)
Fixpoint decodeURIComponent (s : string) : string :=
  match s with
  | EmptyString => EmptyString
  | String c rest =>
      if Ascii.eqb c percent then
        match rest with
        | String h (String l rest') =>
            match unescape h l with
            | Some a => String a (decodeURIComponent rest')
            | None => String c (decodeURIComponent rest)
            end
        | _ => String c (decodeURIComponent rest)
        end
      else String c (decodeURIComponent rest)
  end.

(** [s.split(sep)] for a one-character separator. *)
Fixpoint split (sep : ascii) (s : string) : list string :=
  match s with
  | EmptyString => [EmptyString]
  | String c rest =>
      if Ascii.eqb c sep then EmptyString :: split sep rest
      else
        match split sep rest with
        | [] => [String c EmptyString]
        | x :: xs => String c x :: xs
        end
  end.

(** Cut [s] at the first [sep]: what is before it and what is after it
    (the empty string when there is none). *)
Fixpoint cut (sep : ascii) (s : string) : string * string :=
  match s with
  | EmptyString => (EmptyString, EmptyString)
  | String c rest =>
      if Ascii.eqb c sep then (EmptyString, rest)
      else let '(k, v) := cut sep rest in (String c k, v)
  end.

(** [sep] does not occur in [s]. *)
Fixpoint lacks (sep : ascii) (s : string) : bool :=
  match s with
  | EmptyString => true
  | String c rest => negb (Ascii.eqb c sep) && lacks sep rest
  end.

(** First value bound to [key] in an association list. *)
Fixpoint assoc (key : string) (l : list (string * string)) : option string :=
  match l with
  | [] => None
  | (k, v) :: rest => if String.eqb k key then Some v else assoc key rest
  end.

Definition stripQuestionMark (s : string) : string :=
  match s with
  | String c rest => if Ascii.eqb c "?"%char then rest else s
  | EmptyString => s
  end.

(** The [key=value] pairs of a query string, in the order they are written. *)
Definition rawParams (s : string) : list (string * string) :=
  cut "="%char <$> split "&"%char (stripQuestionMark s).

(** *** The utility's operations *)

(** Modelled from the spec: [getQSConfig] of [@util/qs] is not among the
    sources.  It pairs the namespace of the list with its default
    parameters; the spec names no other use of the namespace. *)
Definition getQSConfig (ns : string) (defaults : QueryDescriptor) : QSConfig :=
  {| namespace := ns; defaultParams := defaults |}.

(** Modelled from the spec: [parseQueryString] of [@util/qs] is not among
    the sources.  Section 4.1: it "fills unspecified fields from [config]
    defaults".  The query string is read as [key=value] pairs joined by
    [&], after an optional leading [?]; [page] and [page_size] are decimal
    integers, [order_by] is a percent-encoded string.  A field that is
    absent, or an integer field that is not a number, takes its default;
    when a key is written twice the first one counts. *)
Definition parseQueryString (config : QSConfig) (s : string) : QueryDescriptor :=
  let raw := rawParams s in
  let d := defaultParams config in
  {| page := default (page d) (assoc "page" raw ≫= parseInt);
     page_size := default (page_size d) (assoc "page_size" raw ≫= parseInt);
     order_by := default (order_by d) (decodeURIComponent <$> assoc "order_by" raw) |}.

(** The fields of [d] that differ from the defaults, as written in a
    query string. *)
Definition nonDefaultParams (def d : QueryDescriptor) : list (string * string) :=
  (if page d =? page def then [] else [("page", showInt (page d))])
  ++ (if page_size d =? page_size def then [] else [("page_size", showInt (page_size d))])
  ++ (if String.eqb (order_by d) (order_by def) then []
      else [("order_by", encodeURIComponent (order_by d))]).

Definition encodePair (p : string * string) : string := p.1 +:+ "=" +:+ p.2.

(** Modelled from the spec: [encodeNonDefaultQueryString] of [@util/qs] is
    not among the sources.  Section 4.1: it "omits fields equal to their
    default, to keep URLs minimal"; the fields that remain are written as
    [key=value] pairs joined by [&]. *)
Definition encodeNonDefaultQueryString (config : QSConfig) (d : QueryDescriptor) : string :=
  String.concat "&" (encodePair <$> nonDefaultParams (defaultParams config) d).

(** Modelled from the spec: [replaceParams] of [@util/qs] is not among the
    sources.  Section 4.1: a "pure override of named fields". *)
Definition replaceParams (d : QueryDescriptor) (p : PartialParams) : QueryDescriptor :=
  {| page := default (page d) (new_page p);
     page_size := default (page_size d) (new_page_size p);
     order_by := default (order_by d) (new_order_by p) |}.

End Qs.

Import Qs.

(** ** Data model *)

(** A credential as the screen sees it: the [id] the handlers compare, and
    what is passed on to the row renderer. *)
Record Credential : Type := {
  id : Z;
  name : string
}.

(** The detail of a failed request. *)
Definition Error : Type := string.

(** The [actions] object of an OPTIONS response: verb to schema.  [None] is
    a response without the field ([undefined]). *)
Definition Actions : Type := option (gmap string string).

(** What [fetchCredentials] resolves to. *)
Record ViewModel : Type := {
  credentials : list Credential;
  credentialCount : Z;
  actions : Actions
}.

(** [data] of the response of [CredentialsAPI.read]. *)
Record ReadData : Type := {
  results : list Credential;
  count : Z
}.

(** [data] of the response of [CredentialsAPI.readOptions]. *)
Record OptionsData : Type := {
  data_actions : Actions
}.

(** The requests the screen sends. *)
Inductive ApiCall : Type :=
  | Read (params : QueryDescriptor)
  | ReadOptions
  | Destroy (credential : Z).

(** One line of the request log: the request and whether it succeeded. *)
Record Exchange : Type := {
  call : ApiCall;
  succeeded : bool
}.

(** The three cells of one [useRequest]. *)
Record RequestState (R : Type) : Type := {
  result : R;
  error : option Error;
  isLoading : bool
}.
Arguments result {R}.
Arguments error {R}.
Arguments isLoading {R}.

(** The state cells of the component, as one render reads them.
    [deletion] has no initial value: its [result] starts [undefined]. *)
Record Hooks : Type := {
  showDeletionError : bool;
  selected : list Credential;
  listing : RequestState ViewModel;
  deletion : RequestState (option (list unit))
}.

(** [useLocation()]. *)
Record Location : Type := {
  pathname : string;
  search : string
}.

(** [useHistory()]: the current location and the URLs pushed so far, the
    latest first. *)
Record History : Type := {
  location : Location;
  pushed : list string
}.

(** How a promise settles. *)
Inductive Settled (A : Type) : Type :=
  | Resolved (value : A)
  | Rejected (reason : Error).
Arguments Resolved {A}.
Arguments Rejected {A}.

Definition QS_CONFIG : QSConfig :=
  getQSConfig "credential" {| page := 1; page_size := 20; order_by := "name" |}.

Definition initialViewModel : ViewModel :=
  {| credentials := []; credentialCount := 0; actions := Some ∅ |}.

Definition initialHooks : Hooks :=
  {| showDeletionError := false;
     selected := [];
     listing := {| result := initialViewModel; error := None; isLoading := false |};
     deletion := {| result := None; error := None; isLoading := false |} |}.

(** What the body of the component destructures from the two requests. *)
Definition viewModel (h : Hooks) : ViewModel := result (listing h).
Definition contentError (h : Hooks) : option Error := error (listing h).
Definition deletionError (h : Hooks) : option Error := error (deletion h).
Definition isDeleteLoading (h : Hooks) : bool := isLoading (deletion h).

Section Screen.

(** The REST backend is outside the repository: it is a parameter, a
    state of its own and what it answers to each request. *)
Context {Server : Type}.

Record Backend : Type := {
  serveRead : QueryDescriptor → Server → Error + ReadData;
  serveOptions : Server → Error + OptionsData;
  serveDestroy : Z → Server → (Error + unit) * Server
}.

Context (backend : Backend).

(** All a handler can touch. *)
Record World : Type := {
  hooks : Hooks;
  history : History;
  server : Server;
  log : list Exchange
}.

(** An [async] function, run to its settlement: the world it leaves is
    kept when it rejects too. *)
Definition Async (A : Type) : Type := World → Settled A * World.

#[export] Instance Async_ret : MRet Async := λ A a w, (Resolved a, w).

#[export] Instance Async_bind : MBind Async := λ A B k m w,
  match m w with
  | (Resolved a, w') => k a w'
  | (Rejected e, w') => (Rejected e, w')
  end.

#[export] Instance Async_fmap : FMap Async := λ A B f m w,
  match m w with
  | (Resolved a, w') => (Resolved (f a), w')
  | (Rejected e, w') => (Rejected e, w')
  end.

(** A call whose promise nobody awaits: the caller goes on whatever
    becomes of it. *)
Definition detached {A} (m : Async A) : Async unit :=
  λ w, (Resolved tt, (m w).2).

(** *** State setters *)

Definition withHooks (f : Hooks → Hooks) (w : World) : World :=
  {| hooks := f (hooks w); history := history w; server := server w; log := log w |}.

Definition setSelected (v : list Credential) : Async unit := λ w,
  (Resolved tt,
   withHooks (λ h, {| showDeletionError := showDeletionError h; selected := v;
                      listing := listing h; deletion := deletion h |}) w).

Definition setShowDeletionError (v : bool) : Async unit := λ w,
  (Resolved tt,
   withHooks (λ h, {| showDeletionError := v; selected := selected h;
                      listing := listing h; deletion := deletion h |}) w).

Definition setListing (f : RequestState ViewModel → RequestState ViewModel) (w : World) : World :=
  withHooks (λ h, {| showDeletionError := showDeletionError h; selected := selected h;
                     listing := f (listing h); deletion := deletion h |}) w.

Definition setDeletion
    (f : RequestState (option (list unit)) → RequestState (option (list unit)))
    (w : World) : World :=
  withHooks (λ h, {| showDeletionError := showDeletionError h; selected := selected h;
                     listing := listing h; deletion := f (deletion h) |}) w.

(** *** The router *)

(** [history.push(url)] of react-router: the URL is recorded and becomes
    the current location, cut at its first [?]. *)
Definition parsePath (url : string) : Location :=
  let '(path, query) := cut "?"%char url in
  {| pathname := path;
     search := if String.eqb query EmptyString then EmptyString else String "?"%char query |}.

Definition history_push (url : string) : Async unit := λ w,
  (Resolved tt,
   {| hooks := hooks w;
      history := {| location := parsePath url; pushed := url :: pushed (history w) |};
      server := server w; log := log w |}).

(** *** The API client *)

(** Every request is written to the log with its outcome. *)
Definition logged (c : ApiCall) (ok : bool) (s : Server) (w : World) : World :=
  {| hooks := hooks w; history := history w; server := s;
     log := log w ++ [{| call := c; succeeded := ok |}] |}.

(** Modelled from the spec: [CredentialsAPI.read] of [@api] is not among
    the sources.  Section 6: a read of the credentials matching the
    descriptor, answered by [{results, count}] or by an error. *)
Definition CredentialsAPI_read (params : QueryDescriptor) : Async ReadData := λ w,
  match serveRead backend params (server w) with
  | inr data => (Resolved data, logged (Read params) true (server w) w)
  | inl e => (Rejected e, logged (Read params) false (server w) w)
  end.

(** Modelled from the spec: [CredentialsAPI.readOptions] of [@api] is not
    among the sources.  Section 6: an OPTIONS call answered by [{actions}]
    or by an error. *)
Definition CredentialsAPI_readOptions : Async OptionsData := λ w,
  match serveOptions backend (server w) with
  | inr data => (Resolved data, logged ReadOptions true (server w) w)
  | inl e => (Rejected e, logged ReadOptions false (server w) w)
  end.

(** Modelled from the spec: [CredentialsAPI.destroy] of [@api] is not among
    the sources.  Section 6: "one delete call per credential [id]"; the
    server may refuse it. *)
Definition CredentialsAPI_destroy (i : Z) : Async unit := λ w,
  match serveDestroy backend i (server w) with
  | (inr _, s) => (Resolved tt, logged (Destroy i) true s w)
  | (inl e, s) => (Rejected e, logged (Destroy i) false s w)
  end.

(** [Promise.all] over promises that are already started: every one runs
    to its end whatever becomes of the others; the whole resolves to the
    values when all resolve and rejects when one rejects.  Promises settle
    here in the order of the array, so the reason is that of the first
    rejected one. *)
Fixpoint Promise_all {A} (ps : list (Async A)) : Async (list A) := λ w,
  match ps with
  | [] => (Resolved [], w)
  | p :: rest =>
      let '(o, w1) := p w in
      let '(os, w2) := Promise_all rest w1 in
      (match o, os with
       | Resolved a, Resolved l => Resolved (a :: l)
       | Rejected e, _ => Rejected e
       | Resolved _, Rejected e => Rejected e
       end, w2)
  end.

(** [Promise.all([p, q])] for two promises of different types. *)
Definition Promise_all2 {A B} (p : Async A) (q : Async B) : Async (A * B) := λ w,
  let '(o1, w1) := p w in
  let '(o2, w2) := q w1 in
  (match o1, o2 with
   | Resolved a, Resolved b => Resolved (a, b)
   | Rejected e, _ => Rejected e
   | Resolved _, Rejected e => Rejected e
   end, w2).

(** *** [useRequest] *)

(** Modelled from the spec: the [request] function returned by
    [useRequest] of [@util/useRequest], which is not among the sources.
    Sections 4.2, 4.3 and 7: while the request is in flight the loading
    flag is true, "on completion (success or failure) it becomes false";
    on success the result is replaced and the error cleared ("the next
    successful fetch clears it"); on failure "the workflow fails with that
    error and the view model is not updated", the error is recorded, and
    the failure reaches the caller ("only success clears" the selection).
    [update] writes the three cells of the request. *)
Definition request {R}
    (update : (RequestState R → RequestState R) → World → World)
    (makeRequest : Async R) : Async unit := λ w,
  let w1 := update (λ st, {| result := result st; error := error st; isLoading := true |}) w in
  match makeRequest w1 with
  | (Resolved response, w2) =>
      (Resolved tt,
       update (λ st, {| result := response; error := None; isLoading := false |}) w2)
  | (Rejected err, w2) =>
      (Rejected err,
       update (λ st, {| result := result st; error := Some err; isLoading := false |}) w2)
  end.

(** *** The component *)

Definition fetchCredentials (location : Location) : Async unit :=
  request setListing (
    let params := parseQueryString QS_CONFIG (search location) in
    '(creds, credActions) ← Promise_all2 (CredentialsAPI_read params) CredentialsAPI_readOptions;
    mret {| credentials := results creds;
            credentialCount := count creds;
            actions := data_actions credActions |}).

(** [useEffect(() => { fetchCredentials(); }, [fetchCredentials])]. *)
Definition fetchEffect (location : Location) : Async unit :=
  detached (fetchCredentials location).

Definition deleteCredentials (h : Hooks) : Async unit :=
  request setDeletion
    (Some <$> Promise_all ((λ s, CredentialsAPI_destroy (id s)) <$> selected h)).

(** [useEffect(() => { if (deletionError) ... }, [deletionError])]. *)
Definition deletionErrorEffect (h : Hooks) : Async unit :=
  match deletionError h with
  | Some _ => setShowDeletionError true
  | None => mret tt
  end.

Definition adjustPagination (h : Hooks) (location : Location) : Async unit :=
  let params := parseQueryString QS_CONFIG (search location) in
  if (1 <? page params) && (length (selected h) =? length (credentials (viewModel h)))%nat
  then
    let newParams :=
      encodeNonDefaultQueryString QS_CONFIG
        (replaceParams params
           {| new_page := Some (page params - 1); new_page_size := None; new_order_by := None |}) in
    history_push (pathname location +:+ "?" +:+ newParams)
  else detached (fetchCredentials location).

Definition handleDelete (h : Hooks) (location : Location) : Async unit :=
  deleteCredentials h ;;
  adjustPagination h location ;;
  setSelected [].

Definition handleSelectAll (h : Hooks) (isSelected : bool) : Async unit :=
  setSelected (if isSelected then credentials (viewModel h) else []).

Definition handleSelect (h : Hooks) (row : Credential) : Async unit :=
  if existsb (λ s, id s =? id row) (selected h)
  then setSelected (filter (λ s, id s ≠ id row) (selected h))
  else setSelected (selected h ++ [row]).

(** [actions && hasOwnProperty(actions, 'POST')], read as a condition. *)
Definition canAdd (h : Hooks) : bool :=
  match actions (viewModel h) with
  | Some verbs => bool_decide (is_Some (verbs !! "POST"))
  | None => false
  end.

Definition isAllSelected (h : Hooks) : bool :=
  (0 <? length (selected h))%nat
  && (length (selected h) =? length (credentials (viewModel h)))%nat.

(** [onClose] of the error modal. *)
Definition closeDeletionError : Async unit := setShowDeletionError false.

(** An event reaches the handler of the latest render. *)
Definition dispatch {A} (handler : Hooks → Location → Async A) : Async A := λ w,
  handler (hooks w) (location (history w)) w.

End Screen.

Arguments Backend : clear implicits.
Arguments World : clear implicits.
Arguments Async : clear implicits.

(** ** An in-memory backend

    A small server to run the screen against: the stored credentials, the
    ids whose deletion it refuses, whether it answers reads at all, and the
    verbs it allows. *)

Record Store : Type := {
  stored : list Credential;
  refused : list Z;
  offline : bool;
  verbs : Actions
}.

Definition pageOf (params : QueryDescriptor) (l : list Credential) : list Credential :=
  take (Z.to_nat (page_size params))
       (drop (Z.to_nat ((page params - 1) * page_size params)) l).

Definition storeBackend : Backend Store :=
  {| serveRead params s :=
       if offline s then inl "Service Unavailable"%string
       else inr {| results := pageOf params (stored s);
                   count := Z.of_nat (length (stored s)) |};
     serveOptions s :=
       if offline s then inl "Service Unavailable"%string
       else inr {| data_actions := verbs s |};
     serveDestroy i s :=
       if bool_decide (i ∈ refused s) then (inl "Forbidden"%string, s)
       else (inr tt,
             {| stored := filter (λ c, id c ≠ i) (stored s);
                refused := refused s; offline := offline s; verbs := verbs s |}) |}.

Definition mount (s : Store) (path query : string) : World Store :=
  {| hooks := initialHooks;
     history := {| location := {| pathname := path; search := query |}; pushed := [] |};
     server := s;
     log := [] |}.

(** ** Sample data *)

Definition credA : Credential := {| id := 1; name := "A" |}.
Definition credB : Credential := {| id := 2; name := "B" |}.
Definition credC : Credential := {| id := 3; name := "C" |}.

(** Three credentials; the server refuses to delete the second. *)
Definition sampleStore : Store :=
  {| stored := [credA; credB; credC]; refused := [2]; offline := false;
     verbs := Some {[ "POST" := "create" ]} |}.

(** The store of the end-to-end example of the spec. *)
Definition twoStore : Store :=
  {| stored := [credA; credB]; refused := []; offline := false;
     verbs := Some {[ "POST" := "create" ]} |}.

Definition downStore : Store :=
  {| stored := [credA]; refused := []; offline := true; verbs := None |}.

(** The screen once mounted on [path?query], its first fetch done and
    [sel] selected. *)
Definition loaded (s : Store) (path query : string) (sel : list Credential) : World Store :=
  let w := mount s path query in
  (setSelected sel (fetchEffect storeBackend (location (history w)) w).2).2.

(** ** Vocabulary of the statements *)

(** The separators of a query string do not survive [encodeURIComponent]. *)
Definition separator (sep : ascii) : Prop :=
  sep = "&"%char ∨ sep = "="%char ∨ sep = "?"%char.

(** A pair that can be read back from its [key=value] form. *)
Definition readable (p : string * string) : Prop :=
  lacks "="%char p.1 = true
  ∧ (∀ sep, sep = "&"%char ∨ sep = "?"%char → lacks sep p.1 = true ∧ lacks sep p.2 = true).

Definition isRight {A B} (r : A + B) : bool :=
  match r with inr _ => true | inl _ => false end.

Section Observations.

Context {Server : Type} (backend : Backend Server).
Implicit Types (w : World Server).

(** The selection the next render sees once a handler has run. *)
Definition selectedAfter (m : Async Server unit) w : list Credential :=
  selected (hooks (m w).2).

(** What the server answers to delete requests sent one after the other,
    and the state they leave it in. *)
Fixpoint destroyAll (ids : list Z) (s : Server) : list (Error + unit) * Server :=
  match ids with
  | [] => ([], s)
  | i :: rest =>
      let '(r, s1) := serveDestroy backend i s in
      let '(rs, s2) := destroyAll rest s1 in
      (r :: rs, s2)
  end.

Definition firstError (answers : list (Error + unit)) : option Error :=
  head (omap (λ r, match r with inl e => Some e | inr _ => None end) answers).

Definition destroyed (i : Z) (r : Error + unit) : Exchange :=
  {| call := Destroy i; succeeded := isRight r |}.

(** The requests sent while [m] runs from [w]. *)
Definition sentBy {A} (m : Async Server A) w : list Exchange :=
  drop (length (log w)) (log (m w).2).

(** The world once the delete requests for [ids] have been answered. *)
Definition afterDestroy (ids : list Z) w : World Server :=
  {| hooks := hooks w; history := history w;
     server := (destroyAll ids (server w)).2;
     log := log w ++ zip_with destroyed ids (destroyAll ids (server w)).1 |}.

(** What [Promise.all] of the two reads settles to. *)
Definition bothReads (params : QueryDescriptor) (s : Server) : Settled ViewModel :=
  match serveRead backend params s, serveOptions backend s with
  | inr creds, inr opts =>
      Resolved {| credentials := results creds; credentialCount := count creds;
                  actions := data_actions opts |}
  | inl e, _ => Rejected e
  | inr _, inl e => Rejected e
  end.

End Observations.

(** ** The rendered list *)

(** The props [renderItem] gives to [CredentialListItem]; [onSelect] is
    [handleSelect item]. *)
Record CredentialListItemProps : Type := {
  key : Z;
  credential : Credential;
  detailUrl : string;
  isSelected : bool
}.

Definition renderItem (h : Hooks) (item : Credential) : CredentialListItemProps :=
  {| key := id item;
     credential := item;
     detailUrl := "/credentials/" +:+ showInt (id item) +:+ "/details";
     isSelected := existsb (λ row, id row =? id item) (selected h) |}.

(** [items.map(renderItem)], the rows [PaginatedDataList] shows. *)
Definition rows (h : Hooks) : list CredentialListItemProps :=
  renderItem h <$> credentials (viewModel h).

(** ** Clicks *)

(** What the user can do to the selection: click a row ([onRowClick],
    [onSelect]) or the select-all box ([onSelectAll]). *)
Inductive Click : Type :=
  | ClickRow (row : Credential)
  | ClickSelectAll (checked : bool).

(** The selection a click asks for, read off [handleSelect] and
    [handleSelectAll]. *)
Definition toggle (row : Credential) (sel : list Credential) : list Credential :=
  if existsb (λ s, id s =? id row) sel
  then filter (λ s, id s ≠ id row) sel
  else sel ++ [row].

Definition applyClick (loaded : list Credential) (sel : list Credential) (c : Click)
    : list Credential :=
  match c with
  | ClickRow row => toggle row sel
  | ClickSelectAll checked => if checked then loaded else []
  end.

(** A click on a row of the list, or on the select-all box. *)
Definition onLoaded (loaded : list Credential) (c : Click) : Prop :=
  match c with
  | ClickRow row => row ∈ loaded
  | ClickSelectAll _ => True
  end.

(** The selection names loaded credentials, each id once. *)
Definition consistent (h : Hooks) : Prop :=
  NoDup (id <$> credentials (viewModel h))
  ∧ NoDup (id <$> selected h)
  ∧ selected h ⊆ credentials (viewModel h).

Section Clicking.

Context {Server : Type}.

Definition click (c : Click) : Async Server unit :=
  dispatch (λ h _,
    match c with
    | ClickRow row => handleSelect h row
    | ClickSelectAll checked => handleSelectAll h checked
    end).

(** Clicks one after the other, each on the render the one before left. *)
Definition clicks (cs : list Click) (w : World Server) : World Server :=
  foldl (λ w c, (click c w).2) w cs.


End Clicking.

(** ** The query-string utility: encoding and decoding *)

Section QsTheory.

Ltac each_char c := destruct c as [[] [] [] [] [] [] [] []]; try reflexivity; try discriminate.

Lemma app_String (c : ascii) (s t : string) : String c s +:+ t = String c (s +:+ t).
Proof. reflexivity. Qed.

Lemma app_empty (t : string) : EmptyString +:+ t = t.
Proof. reflexivity. Qed.

Lemma unescape_hexDigit (c : ascii) :
  unescape (hexDigit (N_of_ascii c / 16)) (hexDigit (N_of_ascii c mod 16)) = Some c.
Proof. each_char c. Qed.

Lemma unreserved_not_percent (c : ascii) :
  isUnreserved c = true → Ascii.eqb c percent = false.
Proof. each_char c. Qed.

Lemma decodeURIComponent_escaped (h l : ascii) (rest : string) :
  decodeURIComponent (String percent (String h (String l rest))) =
  match unescape h l with
  | Some a => String a (decodeURIComponent rest)
  | None => String percent (decodeURIComponent (String h (String l rest)))
  end.
Proof. reflexivity. Qed.

Lemma decodeURIComponent_plain (c : ascii) (rest : string) :
  Ascii.eqb c percent = false →
  decodeURIComponent (String c rest) = String c (decodeURIComponent rest).
Proof. intros H. cbn [decodeURIComponent]. now rewrite H. Qed.

Lemma decode_encode (s : string) : decodeURIComponent (encodeURIComponent s) = s.
Proof.
  induction s as [|c s IH]; [reflexivity|].
  cbn [encodeURIComponent]. unfold escapeChar.
  destruct (isUnreserved c) eqn:Hc.
  - rewrite app_String, app_empty.
    rewrite decodeURIComponent_plain by now apply unreserved_not_percent.
    now rewrite IH.
  - rewrite !app_String, app_empty, decodeURIComponent_escaped, unescape_hexDigit.
    now rewrite IH.
Qed.

Lemma lacks_app (sep : ascii) (s t : string) :
  lacks sep (s +:+ t) = lacks sep s && lacks sep t.
Proof.
  induction s as [|c s IH]; [reflexivity|].
  rewrite app_String. cbn [lacks]. rewrite IH. now rewrite andb_assoc.
Qed.

Lemma lacks_escapeChar (sep c : ascii) : separator sep → lacks sep (escapeChar c) = true.
Proof. intros [-> | [-> | ->]]; each_char c. Qed.

Lemma lacks_encodeURIComponent (sep : ascii) (s : string) :
  separator sep → lacks sep (encodeURIComponent s) = true.
Proof.
  intros Hsep. induction s as [|c s IH]; [reflexivity|].
  cbn [encodeURIComponent]. now rewrite lacks_app, lacks_escapeChar, IH.
Qed.

Lemma lacks_string_of_uint (sep : ascii) (d : Decimal.uint) :
  separator sep → lacks sep (NilEmpty.string_of_uint d) = true.
Proof.
  intros Hsep. induction d; cbn [NilEmpty.string_of_uint lacks]; rewrite ?IHd;
    destruct Hsep as [-> | [-> | ->]]; reflexivity.
Qed.

Lemma lacks_showInt (sep : ascii) (z : Z) : separator sep → lacks sep (showInt z) = true.
Proof.
  intros Hsep. unfold showInt.
  assert (Hu : ∀ d, lacks sep (NilZero.string_of_uint d) = true).
  { intros d. destruct d; try apply (lacks_string_of_uint sep _ Hsep).
    destruct Hsep as [-> | [-> | ->]]; reflexivity. }
  destruct (Z.to_int z) as [d|d]; cbn [NilZero.string_of_int lacks]; rewrite ?Hu;
    [reflexivity|]. destruct Hsep as [-> | [-> | ->]]; reflexivity.
Qed.

Lemma parseInt_showInt (z : Z) : parseInt (showInt z) = Some z.
Proof.
  unfold parseInt, showInt. rewrite NilZero.isi.
  - cbn. now rewrite DecimalZ.of_to.
  - destruct z; cbn; try discriminate. intros [= H]. now apply DecimalPos.Unsigned.to_uint_nonnil in H.
  - destruct z; cbn; try discriminate. intros [= H]. now apply DecimalPos.Unsigned.to_uint_nonnil in H.
Qed.

Lemma split_lacks (sep : ascii) (s : string) : lacks sep s = true → split sep s = [s].
Proof.
  induction s as [|c s IH]; [reflexivity|].
  cbn [lacks split]. intros [Hc Hs]%andb_prop. apply negb_true_iff in Hc.
  now rewrite Hc, IH.
Qed.

Lemma split_app (sep : ascii) (s rest : string) :
  lacks sep s = true → split sep (s +:+ String sep rest) = s :: split sep rest.
Proof.
  induction s as [|c s IH]; rewrite ?app_String, ?app_empty; cbn [lacks split].
  - intros _. now rewrite Ascii.eqb_refl.
  - intros [Hc Hs]%andb_prop. apply negb_true_iff in Hc. now rewrite Hc, IH.
Qed.

Lemma split_concat (sep : ascii) (pieces : list string) :
  Forall (λ p, lacks sep p = true) pieces → pieces ≠ [] →
  split sep (String.concat (String sep EmptyString) pieces) = pieces.
Proof.
  induction 1 as [|p [|q pieces] Hp Hrest IH]; intros Hne; [done| |].
  - now apply split_lacks.
  - change (String.concat (String sep EmptyString) (p :: q :: pieces))
      with (p +:+ String sep (String.concat (String sep EmptyString) (q :: pieces))).
    rewrite split_app by done. now rewrite IH.
Qed.

Lemma cut_app (sep : ascii) (k v : string) :
  lacks sep k = true → cut sep (k +:+ String sep v) = (k, v).
Proof.
  induction k as [|c k IH]; rewrite ?app_String, ?app_empty; cbn [lacks cut].
  - intros _. now rewrite Ascii.eqb_refl.
  - intros [Hc Hk]%andb_prop. apply negb_true_iff in Hc. now rewrite Hc, IH.
Qed.

Lemma lacks_concat (c : ascii) (sep : string) (pieces : list string) :
  lacks c sep = true → Forall (λ p, lacks c p = true) pieces →
  lacks c (String.concat sep pieces) = true.
Proof.
  intros Hsep. induction 1 as [|p [|q pieces] Hp Hrest IH]; [done..|].
  change (String.concat sep (p :: q :: pieces))
    with (p +:+ sep +:+ String.concat sep (q :: pieces)).
  now rewrite !lacks_app, Hp, Hsep, IH.
Qed.

Lemma stripQuestionMark_lacks (s : string) :
  lacks "?"%char s = true → stripQuestionMark s = s.
Proof.
  destruct s as [|c s]; [done|]. cbn [lacks stripQuestionMark].
  intros [Hc _]%andb_prop. apply negb_true_iff in Hc. now rewrite Hc.
Qed.

Lemma lacks_encodePair (sep : ascii) (p : string * string) :
  sep = "&"%char ∨ sep = "?"%char → readable p → lacks sep (encodePair p) = true.
Proof.
  intros Hsep [_ H]. destruct (H sep Hsep) as [Hk Hv]. unfold encodePair.
  rewrite !lacks_app, Hk, Hv. destruct Hsep as [-> | ->]; reflexivity.
Qed.

Lemma cut_encodePair (p : string * string) : readable p → cut "="%char (encodePair p) = p.
Proof.
  intros [Hk _]. destruct p as [k v]. unfold encodePair. cbn [fst snd] in *.
  change ("=" +:+ v) with (String "="%char v). now apply cut_app.
Qed.

Lemma rawParams_join (l : list (string * string)) :
  Forall readable l → l ≠ [] →
  rawParams (String.concat "&" (encodePair <$> l)) = l.
Proof.
  intros Hl Hne. unfold rawParams.
  rewrite stripQuestionMark_lacks.
  - rewrite (split_concat "&"%char).
    + rewrite <- list_fmap_compose. rewrite <- (list_fmap_id l) at 2.
      apply Forall_fmap_ext_1. eapply Forall_impl; [exact Hl|].
      intros p Hp. now apply cut_encodePair.
    + apply Forall_fmap. eapply Forall_impl; [exact Hl|].
      intros p Hp. apply lacks_encodePair; auto.
    + now destruct l.
  - apply lacks_concat; [reflexivity|].
    apply Forall_fmap. eapply Forall_impl; [exact Hl|].
    intros p Hp. apply lacks_encodePair; auto.
Qed.

Lemma readable_nonDefaultParams (def d : QueryDescriptor) :
  Forall readable (nonDefaultParams def d).
Proof.
  unfold nonDefaultParams.
  repeat apply Forall_app_2; (case_match; [apply Forall_nil_2 | apply Forall_singleton]);
    (split; [reflexivity|]); intros sep Hsep; cbn [fst snd];
    (split; [destruct Hsep as [-> | ->]; reflexivity|]).
  1,2: apply lacks_showInt; destruct Hsep as [-> | ->]; unfold separator; auto.
  apply lacks_encodeURIComponent; destruct Hsep as [-> | ->]; unfold separator; auto.
Qed.

(** Decoding what the encoder wrote gives the descriptor back, whatever
    the defaults. *)
Lemma parse_encode (config : QSConfig) (d : QueryDescriptor) :
  parseQueryString config (encodeNonDefaultQueryString config d) = d.
Proof.
  unfold parseQueryString, encodeNonDefaultQueryString.
  pose proof (readable_nonDefaultParams (defaultParams config) d) as Hl.
  destruct (nonDefaultParams (defaultParams config) d) as [|p l] eqn:El.
  - unfold nonDefaultParams in El. destruct d as [pg ps ob]. cbn [page page_size order_by] in *.
    repeat case_match; try discriminate.
    cbn. f_equal; try (symmetry; now apply Z.eqb_eq). symmetry. now apply String.eqb_eq.
  - rewrite rawParams_join by done. rewrite <- El. clear Hl El p l.
    unfold nonDefaultParams. destruct d as [pg ps ob]. cbn [page page_size order_by].
    destruct (Z.eqb_spec pg (page (defaultParams config))) as [<-|_];
    destruct (Z.eqb_spec ps (page_size (defaultParams config))) as [<-|_];
    destruct (String.eqb_spec ob (order_by (defaultParams config))) as [<-|_];
    cbn [app assoc String.eqb Ascii.eqb Bool.eqb mbind option_bind fmap option_fmap option_map default];
    rewrite ?parseInt_showInt, ?decode_encode; reflexivity.
Qed.

Lemma lacks_encode_question (config : QSConfig) (d : QueryDescriptor) :
  lacks "?"%char (encodeNonDefaultQueryString config d) = true.
Proof.
  unfold encodeNonDefaultQueryString. apply lacks_concat; [reflexivity|].
  apply Forall_fmap. eapply Forall_impl; [apply readable_nonDefaultParams|].
  intros p Hp. apply lacks_encodePair; auto.
Qed.

Lemma parse_question (config : QSConfig) (q : string) :
  lacks "?"%char q = true →
  parseQueryString config (String "?"%char q) = parseQueryString config q.
Proof.
  intros Hq. unfold parseQueryString, rawParams.
  rewrite (stripQuestionMark_lacks q Hq). reflexivity.
Qed.

(** The location reached by pushing [path?query] decodes to the descriptor
    the query was written from. *)
Lemma parse_search (config : QSConfig) (path : string) (d : QueryDescriptor) :
  lacks "?"%char path = true →
  parseQueryString config
    (search (parsePath (path +:+ "?" +:+ encodeNonDefaultQueryString config d))) = d.
Proof.
  intros Hpath. unfold parsePath.
  change ("?" +:+ encodeNonDefaultQueryString config d)
    with (String "?"%char (encodeNonDefaultQueryString config d)).
  rewrite cut_app by done. cbn [search].
  destruct (String.eqb_spec (encodeNonDefaultQueryString config d) EmptyString) as [Hq|Hq].
  - rewrite <- Hq. apply parse_encode.
  - rewrite parse_question by apply lacks_encode_question. apply parse_encode.
Qed.

(** C5: for a valid descriptor [d] (a page from 1 on and a positive page
    size), decoding with [QS_CONFIG] the query string that encodes [d] gives
    [d] again.  The defaults of [QS_CONFIG] are page 1, page size 20 and
    order by name; they are what the empty query string decodes to and they
    are encoded as the empty query string. *)
Theorem query_round_trip (d : QueryDescriptor) :
  valid d →
  parseQueryString QS_CONFIG (encodeNonDefaultQueryString QS_CONFIG d) = d
  ∧ defaultParams QS_CONFIG = {| page := 1; page_size := 20; order_by := "name" |}
  ∧ parseQueryString QS_CONFIG EmptyString = defaultParams QS_CONFIG
  ∧ encodeNonDefaultQueryString QS_CONFIG (defaultParams QS_CONFIG) = EmptyString.
Proof. intros _. split; [apply parse_encode | repeat split]. Qed.

End QsTheory.

Arguments parseQueryString : simpl never.
Arguments encodeNonDefaultQueryString : simpl never.

(** ** Selection and the derived flags *)

Section Selection.

Context {Server : Type}.
Implicit Types (w : World Server) (h : Hooks) (row s : Credential).

Lemma existsb_same_id row (l : list Credential) :
  existsb (λ s, id s =? id row) l = true ↔ ∃ s, s ∈ l ∧ id s = id row.
Proof.
  rewrite existsb_exists. split; intros (s & Hs & Hid); exists s.
  - split; [now apply list_elem_of_In | now apply Z.eqb_eq].
  - split; [now apply list_elem_of_In | now apply Z.eqb_eq].
Qed.

Lemma existsb_other_id row (l : list Credential) :
  existsb (λ s, id s =? id row) l = false ↔ ∀ s, s ∈ l → id s ≠ id row.
Proof.
  rewrite <- not_true_iff_false, existsb_same_id. split.
  - intros Hno s Hs Hid. apply Hno. eauto.
  - intros Hall (s & Hs & Hid). now apply (Hall s).
Qed.

Lemma filter_other_id row (l : list Credential) :
  (∀ s, s ∈ l → id s ≠ id row) → filter (λ s, id s ≠ id row) l = l.
Proof.
  intros Hall. induction l as [|x l IH]; [done|].
  rewrite filter_cons_True by (apply Hall; left).
  f_equal. apply IH. intros s Hs. apply Hall. now right.
Qed.

Lemma handleSelect_selected h row w :
  selectedAfter (handleSelect h row) w =
  if existsb (λ s, id s =? id row) (selected h)
  then filter (λ s, id s ≠ id row) (selected h)
  else selected h ++ [row].
Proof. unfold selectedAfter, handleSelect. now destruct (existsb _ _). Qed.

Lemma handleSelect_frame h row w :
  let w' := (handleSelect h row w).2 in
  (handleSelect h row w).1 = Resolved tt
  ∧ history w' = history w ∧ server w' = server w ∧ log w' = log w
  ∧ listing (hooks w') = listing (hooks w)
  ∧ deletion (hooks w') = deletion (hooks w)
  ∧ showDeletionError (hooks w') = showDeletionError (hooks w).
Proof. unfold handleSelect. now destruct (existsb _ _). Qed.

(** Removing the entries of one id from a list without repeated ids and
    adding one entry of that id again leaves the same ids. *)
Lemma ids_remove_add row (l : list Credential) :
  NoDup (id <$> l) → (∃ s, s ∈ l ∧ id s = id row) →
  id <$> (filter (λ s, id s ≠ id row) l ++ [row]) ≡ₚ id <$> l.
Proof.
  induction l as [|x l IH]; intros Hnd (s & Hs & Hid).
  - now apply elem_of_nil in Hs.
  - rewrite fmap_cons in Hnd. apply NoDup_cons in Hnd as [Hx Hnd].
    destruct (decide (id x = id row)) as [Hxr|Hxr].
    + rewrite filter_cons_False by tauto.
      rewrite filter_other_id.
      * rewrite fmap_app, fmap_cons. cbn [fmap list_fmap]. rewrite Hxr.
        symmetry. apply Permutation_cons_append.
      * intros t Ht Hidt. apply Hx. rewrite Hxr, <- Hidt. now apply list_elem_of_fmap_2.
    + rewrite filter_cons_True by done. cbn [app]. rewrite !fmap_cons.
      apply Permutation_skip, IH; [done|].
      apply elem_of_cons in Hs as [->|Hs]; [done|]. eauto.
Qed.

(** C6: [isAllSelected] is true exactly when the selection is not empty
    and has as many entries as there are loaded credentials, a comparison
    of sizes.  After select-all it is true as soon as a credential is
    loaded, and false again once any one [row] of them is taken out of the
    selection. *)
Theorem isAllSelected_by_size w row :
  let h := hooks w in
  let all := (dispatch (λ h _, handleSelectAll h true) w).2 in
  let less := (dispatch (λ h _, handleSelect h row) all).2 in
  (isAllSelected h = true ↔
     selected h ≠ [] ∧ length (selected h) = length (credentials (viewModel h)))
  ∧ (isAllSelected (hooks all) = true ↔ credentials (viewModel h) ≠ [])
  ∧ (row ∈ credentials (viewModel h) →
     selected (hooks all) = credentials (viewModel h)
     ∧ isAllSelected (hooks all) = true
     ∧ (length (selected (hooks less)) < length (credentials (viewModel h)))%nat
     ∧ isAllSelected (hooks less) = false).
Proof.
  intros h all less.
  assert (Hiff : ∀ h', isAllSelected h' = true ↔
            selected h' ≠ [] ∧ length (selected h') = length (credentials (viewModel h'))).
  { intros h'. unfold isAllSelected. rewrite andb_true_iff, Nat.ltb_lt, Nat.eqb_eq.
    destruct (selected h'); cbn [length]; split; intros []; split; (done || lia). }
  split; [apply Hiff|]. split.
  - rewrite Hiff. change (selected (hooks all)) with (credentials (viewModel h)).
    change (viewModel (hooks all)) with (viewModel h). tauto.
  - intros Hrow.
    assert (Hall : selected (hooks all) = credentials (viewModel h)) by reflexivity.
    assert (Hvm : viewModel (hooks less) = viewModel h).
    { unfold less, dispatch, handleSelect. now destruct (existsb _ _). }
    assert (Hless : (length (selected (hooks less)) < length (credentials (viewModel h)))%nat).
    { unfold less, dispatch. fold (selectedAfter (handleSelect (hooks all) row) all).
      rewrite handleSelect_selected, Hall.
      destruct (existsb _ _) eqn:Hex.
      - apply (length_filter_lt _ _ row); [done | tauto].
      - rewrite existsb_other_id in Hex. now destruct (Hex row Hrow). }
    split; [done|]. split; [|split; [done|]].
    + unfold isAllSelected. rewrite Hall, Nat.eqb_refl, andb_true_r.
      apply Nat.ltb_lt. destruct (credentials (viewModel h)); cbn [length]; [|lia].
      now apply elem_of_nil in Hrow.
    + unfold isAllSelected. rewrite Hvm.
      apply andb_false_iff. right. apply Nat.eqb_neq. lia.
Qed.

(** C7: [canAdd] is true exactly when the actions mapping has a key
    [POST]; a response without actions, an empty mapping and a mapping
    with other verbs only give false. *)
Theorem canAdd_iff_POST h :
  (canAdd h = true ↔
     ∃ verbs, actions (viewModel h) = Some verbs ∧ is_Some (verbs !! "POST"))
  ∧ (actions (viewModel h) = None → canAdd h = false)
  ∧ (actions (viewModel h) = Some ∅ → canAdd h = false)
  ∧ (∀ verbs, actions (viewModel h) = Some verbs → verbs !! "POST" = None →
       canAdd h = false).
Proof.
  unfold canAdd. repeat split.
  - destruct (actions (viewModel h)) as [verbs|]; [|done].
    intros H%bool_decide_eq_true. eauto.
  - intros (verbs & -> & H). now apply bool_decide_eq_true.
  - now intros ->.
  - intros ->. apply bool_decide_eq_false. rewrite lookup_empty. now intros [x ?].
  - intros verbs -> H. apply bool_decide_eq_false. rewrite H. now intros [x ?].
Qed.

(** C8: [handleSelect row] toggles by [id] alone.  When an entry of the
    selection has the id of [row], all the entries of that id are removed;
    when none has, [row] is added at the end.  Entries of another id stay
    as they are, in their order, and a row with the same id and different
    other fields does the same to the ids selected. *)
Theorem handleSelect_toggles_by_id h row w :
  let after := selectedAfter (handleSelect h row) w in
  ((∃ s, s ∈ selected h ∧ id s = id row) →
     after = filter (λ s, id s ≠ id row) (selected h)
     ∧ ∀ s, s ∈ after → id s ≠ id row)
  ∧ ((∀ s, s ∈ selected h → id s ≠ id row) → after = selected h ++ [row])
  ∧ filter (λ s, id s ≠ id row) after = filter (λ s, id s ≠ id row) (selected h)
  ∧ (∀ row', id row' = id row →
       id <$> selectedAfter (handleSelect h row') w = id <$> after
       ∧ ((∃ s, s ∈ selected h ∧ id s = id row) →
            selectedAfter (handleSelect h row') w = after)).
Proof.
  intros after. unfold after. rewrite handleSelect_selected.
  split; [|split; [|split]].
  - intros Hex. rewrite (proj2 (existsb_same_id row (selected h)) Hex).
    split; [done|]. now intros s [Hs _]%list_elem_of_filter.
  - intros Hno. now rewrite (proj2 (existsb_other_id row (selected h)) Hno).
  - destruct (existsb _ _).
    + rewrite list_filter_filter. apply list_filter_iff. tauto.
    + rewrite filter_app, filter_cons_False by tauto.
      now rewrite filter_nil, app_nil_r.
  - intros row' Hid. rewrite handleSelect_selected, Hid. split.
    + destruct (existsb _ _); [done|]. now rewrite !fmap_app, !fmap_cons, Hid.
    + intros Hex. now rewrite (proj2 (existsb_same_id row (selected h)) Hex).
Qed.

(** C9: [handleSelectAll true] makes the selection a copy of the loaded
    credentials and [handleSelectAll false] makes it empty, whatever was
    selected before; nothing else changes. *)
Theorem handleSelectAll_replaces_selection h w :
  selectedAfter (handleSelectAll h true) w = credentials (viewModel h)
  ∧ selectedAfter (handleSelectAll h false) w = []
  ∧ ∀ isSelected,
      let w' := (handleSelectAll h isSelected w).2 in
      (handleSelectAll h isSelected w).1 = Resolved tt
      ∧ viewModel (hooks w') = viewModel (hooks w)
      ∧ history w' = history w ∧ server w' = server w ∧ log w' = log w.
Proof. repeat split. Qed.

(** C10: toggling is an involution on the ids selected.  When no two
    entries of the selection have the same id, [handleSelect row] run
    twice, each time from the latest render, leaves the same set of ids,
    each of them once. *)
Theorem handleSelect_twice w row :
  let once := (dispatch (λ h _, handleSelect h row) w).2 in
  let twice := (dispatch (λ h _, handleSelect h row) once).2 in
  NoDup (id <$> selected (hooks w)) →
  list_to_set (id <$> selected (hooks twice)) =@{gset Z}
    list_to_set (id <$> selected (hooks w))
  ∧ id <$> selected (hooks twice) ≡ₚ id <$> selected (hooks w).
Proof.
  intros once twice Hnd.
  assert (Hperm : id <$> selected (hooks twice) ≡ₚ id <$> selected (hooks w)).
  { unfold twice, dispatch. fold (selectedAfter (handleSelect (hooks once) row) once).
    rewrite handleSelect_selected.
    unfold once, dispatch. fold (selectedAfter (handleSelect (hooks w) row) w).
    rewrite handleSelect_selected.
    destruct (existsb _ (selected (hooks w))) eqn:Hex.
    - assert (Hgone : existsb (λ s, id s =? id row)
                        (filter (λ s, id s ≠ id row) (selected (hooks w))) = false).
      { apply existsb_other_id. now intros s [Hs _]%list_elem_of_filter. }
      rewrite Hgone. apply ids_remove_add; [done|]. now apply existsb_same_id.
    - rewrite existsb_app, Hex. cbn [existsb]. rewrite Z.eqb_refl. cbn [orb].
      rewrite filter_app, filter_cons_False, filter_nil, app_nil_r by tauto.
      rewrite filter_other_id; [done|]. now apply existsb_other_id. }
  split; [|done]. apply set_eq. intros i.
  rewrite !elem_of_list_to_set. now rewrite Hperm.
Qed.

End Selection.

(** ** The workflows *)

Section Workflows.

Context {Server : Type} (backend : Backend Server).
Implicit Types (w : World Server) (h : Hooks) (loc : Location).

Lemma destroyAll_length ids s : length (destroyAll backend ids s).1 = length ids.
Proof.
  revert s. induction ids as [|i ids IH]; intros s; [done|].
  cbn [destroyAll]. destruct (serveDestroy backend i s) as [r s1].
  specialize (IH s1). destruct (destroyAll backend ids s1) as [rs s2]. cbn in *. now rewrite IH.
Qed.

Lemma Promise_all_destroy ids w :
  Promise_all (CredentialsAPI_destroy backend <$> ids) w =
  (match firstError (destroyAll backend ids (server w)).1 with
   | Some e => Rejected e
   | None => Resolved (replicate (length ids) tt)
   end,
   {| hooks := hooks w; history := history w;
      server := (destroyAll backend ids (server w)).2;
      log := log w ++ zip_with destroyed ids (destroyAll backend ids (server w)).1 |}).
Proof.
  revert w. induction ids as [|i ids IH]; intros w.
  - cbn. rewrite app_nil_r. now destruct w.
  - cbn [fmap list_fmap Promise_all destroyAll]. fold (fmap (M:=list) (CredentialsAPI_destroy backend)).
    unfold CredentialsAPI_destroy at 1.
    destruct (serveDestroy backend i (server w)) as [[e|[]] s1] eqn:Hi.
    + rewrite IH. cbn [server logged hooks history log].
      destruct (destroyAll backend ids s1) as [rs s2]. cbn [fst snd zip_with].
      rewrite <- app_assoc. reflexivity.
    + rewrite IH. cbn [server logged hooks history log].
      destruct (destroyAll backend ids s1) as [rs s2]. cbn [fst snd zip_with].
      rewrite <- app_assoc. unfold firstError. cbn [omap list_omap].
      fold (omap (M:=list) (λ r : Error + unit, match r with inl e => Some e | inr _ => None end)).
      destruct (head _); reflexivity.
Qed.

Lemma deleteCredentials_run h w :
  let ids := id <$> selected h in
  deleteCredentials backend h w =
  match firstError (destroyAll backend ids (server w)).1 with
  | Some e =>
      (Rejected e,
       setDeletion (λ st, {| result := result st; error := Some e; isLoading := false |})
         (afterDestroy backend ids w))
  | None =>
      (Resolved tt,
       setDeletion (λ _, {| result := Some (replicate (length ids) tt);
                            error := None; isLoading := false |})
         (afterDestroy backend ids w))
  end.
Proof.
  intros ids. unfold deleteCredentials, request.
  unfold fmap at 1. unfold Async_fmap.
  rewrite (list_fmap_compose id (CredentialsAPI_destroy backend)).
  rewrite Promise_all_destroy. fold ids. cbn [server setDeletion withHooks hooks].
  destruct (firstError _); reflexivity.
Qed.

Lemma firstError_None answers :
  firstError answers = None ↔ Forall (λ r, isRight r = true) answers.
Proof.
  unfold firstError. induction answers as [|[e|u] answers IH]; cbn.
  - split; [constructor | done].
  - split; [done|]. intros H. now apply Forall_cons in H as [? _].
  - rewrite IH. split; [now constructor|]. intros H. now apply Forall_cons in H as [_ ?].
Qed.

Lemma firstError_Some answers e : firstError answers = Some e → inl e ∈ answers.
Proof.
  unfold firstError. induction answers as [|[e'|u] answers IH]; cbn; [done| |].
  - intros [= ->]. left.
  - intros H. right. now apply IH.
Qed.

Lemma sentBy_deleteCredentials h w :
  sentBy (deleteCredentials backend h) w =
  zip_with destroyed (id <$> selected h) (destroyAll backend (id <$> selected h) (server w)).1.
Proof.
  unfold sentBy. rewrite deleteCredentials_run.
  destruct (firstError _); cbn [snd log setDeletion withHooks afterDestroy];
    now rewrite drop_app_length.
Qed.

Lemma zip_destroyed_calls ids (rs : list (Error + unit)) :
  length rs = length ids → call <$> zip_with destroyed ids rs = Destroy <$> ids.
Proof.
  revert rs. induction ids as [|i ids IH]; intros [|r rs] Hlen; try done.
  cbn in *. f_equal. apply IH. lia.
Qed.

Lemma zip_destroyed_succeeded ids (rs : list (Error + unit)) :
  length rs = length ids → succeeded <$> zip_with destroyed ids rs = isRight <$> rs.
Proof.
  revert rs. induction ids as [|i ids IH]; intros [|r rs] Hlen; try done.
  cbn in *. f_equal. apply IH. lia.
Qed.

Lemma Forall_succeeded (l : list Exchange) :
  Forall (λ x, succeeded x = true) l ↔ Forall (λ b, b = true) (succeeded <$> l).
Proof. now rewrite Forall_fmap. Qed.

Lemma Forall_isRight (rs : list (Error + unit)) :
  Forall (λ r, isRight r = true) rs ↔ Forall (λ b, b = true) (isRight <$> rs).
Proof. now rewrite Forall_fmap. Qed.

Lemma not_all_succeeded (l : list Exchange) :
  ¬ Forall (λ x, succeeded x = true) l ↔ ∃ x, x ∈ l ∧ succeeded x = false.
Proof.
  rewrite <- Exists_Forall_neg by (intros x; destruct (succeeded x); [left|right]; done).
  rewrite Exists_exists. split; intros (x & Hx & Hs); exists x; split; try done.
  - now apply not_true_is_false.
  - now rewrite Hs.
Qed.

Lemma deleteCredentials_rejects_on_failure h w :
  (∃ x, x ∈ sentBy (deleteCredentials backend h) w ∧ succeeded x = false) →
  ∃ e, (deleteCredentials backend h w).1 = Rejected e.
Proof.
  rewrite <- not_all_succeeded, sentBy_deleteCredentials.
  rewrite Forall_succeeded, zip_destroyed_succeeded by apply destroyAll_length.
  rewrite <- Forall_isRight, <- firstError_None, deleteCredentials_run.
  destruct (firstError _) as [e|]; [eauto | done].
Qed.

(** C4: [deleteCredentials] sends one delete request for each entry of
    the selection, with its id.  It resolves exactly when every one of
    them succeeded and rejects, with the reason of a failed one, as soon
    as one failed.  The server is left as the requests left it, those that
    succeeded before or after a failure included, and a rejection leaves
    the result of the request as it was: which deletions went through is
    not recorded. *)
Theorem deleteCredentials_all_or_nothing h w :
  let ids := id <$> selected h in
  let sent := sentBy (deleteCredentials backend h) w in
  let o := (deleteCredentials backend h w).1 in
  let w' := (deleteCredentials backend h w).2 in
  call <$> sent = Destroy <$> ids
  ∧ (o = Resolved tt ↔ Forall (λ x, succeeded x = true) sent)
  ∧ ((∃ x, x ∈ sent ∧ succeeded x = false) ↔ ∃ e, o = Rejected e)
  ∧ (∀ e, o = Rejected e →
       inl e ∈ (destroyAll backend ids (server w)).1
       ∧ deletionError (hooks w') = Some e
       ∧ result (deletion (hooks w')) = result (deletion (hooks w)))
  ∧ server w' = (destroyAll backend ids (server w)).2
  ∧ selected (hooks w') = selected (hooks w)
  ∧ listing (hooks w') = listing (hooks w)
  ∧ history w' = history w.
Proof.
  intros ids sent o w'.
  pose proof (destroyAll_length ids (server w)) as Hlen.
  assert (Hall : Forall (λ x, succeeded x = true) sent ↔
                 firstError (destroyAll backend ids (server w)).1 = None).
  { unfold sent. rewrite sentBy_deleteCredentials, firstError_None.
    rewrite Forall_succeeded, Forall_isRight. fold ids.
    now rewrite zip_destroyed_succeeded. }
  assert (Hsent : call <$> sent = Destroy <$> ids).
  { unfold sent. rewrite sentBy_deleteCredentials. now apply zip_destroyed_calls. }
  unfold o, w'. rewrite deleteCredentials_run. fold ids.
  destruct (firstError (destroyAll backend ids (server w)).1) as [e|] eqn:Hfirst.
  - cbn [fst snd]. split; [done|]. split; [|split; [|split]].
    + rewrite Hall. split; discriminate.
    + rewrite <- not_all_succeeded, Hall. split; [eauto | discriminate].
    + intros e' [= <-]. split; [now apply firstError_Some | done].
    + done.
  - cbn [fst snd]. split; [done|]. split; [|split; [|split]].
    + now rewrite Hall.
    + rewrite <- not_all_succeeded, Hall. split; [done | intros [e He]; discriminate].
    + discriminate.
    + done.
Qed.

Lemma fetchCredentials_run loc w :
  let params := parseQueryString QS_CONFIG (search loc) in
  let asked :=
    {| hooks := hooks w; history := history w; server := server w;
       log := log w ++ [ {| call := Read params;
                            succeeded := isRight (serveRead backend params (server w)) |};
                         {| call := ReadOptions;
                            succeeded := isRight (serveOptions backend (server w)) |} ] |} in
  fetchCredentials backend loc w =
  match bothReads backend params (server w) with
  | Resolved vm =>
      (Resolved tt, setListing (λ _, {| result := vm; error := None; isLoading := false |}) asked)
  | Rejected e =>
      (Rejected e,
       setListing (λ st, {| result := result st; error := Some e; isLoading := false |}) asked)
  end.
Proof.
  intros params asked. unfold asked, fetchCredentials, request, bothReads. fold params.
  unfold mbind, Async_bind, mret, Async_ret, Promise_all2,
    CredentialsAPI_read, CredentialsAPI_readOptions, logged, setListing, withHooks.
  cbn [server hooks history log].
  destruct (serveRead backend params (server w)) as [e1|creds];
    cbn [server hooks history log];
    destruct (serveOptions backend (server w)) as [e2|opts];
    cbn [server hooks history log isRight];
    rewrite <- ?app_assoc; reflexivity.
Qed.

(** C3: when the list read or the options read fails, [fetchCredentials]
    fails with the error of a failed read, that error becomes the content
    error, and the view model stays what it was: the empty one when
    nothing had been loaded yet. *)
Theorem fetchCredentials_failure loc w :
  let params := parseQueryString QS_CONFIG (search loc) in
  let o := (fetchCredentials backend loc w).1 in
  let w' := (fetchCredentials backend loc w).2 in
  (∃ e, serveRead backend params (server w) = inl e)
  ∨ (∃ e, serveOptions backend (server w) = inl e) →
  ∃ e, o = Rejected e
    ∧ (serveRead backend params (server w) = inl e
       ∨ serveOptions backend (server w) = inl e)
    ∧ contentError (hooks w') = Some e
    ∧ viewModel (hooks w') = viewModel (hooks w)
    ∧ (hooks w = initialHooks →
       viewModel (hooks w') =
       {| credentials := []; credentialCount := 0; actions := Some ∅ |})
    ∧ isLoading (listing (hooks w')) = false
    ∧ selected (hooks w') = selected (hooks w).
Proof.
  intros params o w' Hfail. unfold o, w'. rewrite fetchCredentials_run. fold params.
  unfold bothReads.
  destruct (serveRead backend params (server w)) as [e1|creds] eqn:Hread.
  - exists e1. cbn. repeat split; auto. now intros ->.
  - destruct (serveOptions backend (server w)) as [e2|opts] eqn:Hopts.
    + exists e2. cbn. repeat split; auto. now intros ->.
    + destruct Hfail as [[e He]|[e He]]; discriminate.
Qed.

Lemma adjustPagination_resolves h loc w :
  (adjustPagination backend h loc w).1 = Resolved tt.
Proof. unfold adjustPagination. now destruct (_ && _). Qed.

Lemma handleDelete_run h loc w :
  handleDelete backend h loc w =
  match deleteCredentials backend h w with
  | (Resolved _, w1) =>
      (Resolved tt, (setSelected [] (adjustPagination backend h loc w1).2).2)
  | (Rejected e, w1) => (Rejected e, w1)
  end.
Proof.
  unfold handleDelete, mbind, Async_bind.
  destruct (deleteCredentials backend h w) as [[[]|e] w1]; [|done].
  pose proof (adjustPagination_resolves h loc w1) as Hadj.
  destruct (adjustPagination backend h loc w1) as [[[]|e] w2]; [done|discriminate].
Qed.

Lemma sentBy_fetchCredentials loc w :
  call <$> sentBy (fetchCredentials backend loc) w =
  [Read (parseQueryString QS_CONFIG (search loc)); ReadOptions].
Proof.
  unfold sentBy. rewrite fetchCredentials_run.
  destruct (bothReads _ _ _); cbn [snd log setListing withHooks];
    now rewrite drop_app_length.
Qed.

Lemma fetchCredentials_history loc w :
  history (fetchCredentials backend loc w).2 = history w.
Proof. rewrite fetchCredentials_run. now destruct (bothReads _ _ _). Qed.

(** C1: the pagination adjustment that follows a deletion.  When the page
    decoded from the location is greater than 1 and as many entries are
    selected as credentials are loaded, [adjustPagination] pushes the
    location with the query string re-encoded for [page - 1], that query
    string decodes to the page before, and no request is sent; in every
    other state it runs [fetchCredentials] for the current location and
    pushes nothing.  [handleDelete] runs it once [deleteCredentials] has
    resolved. *)
Theorem adjustPagination_policy h loc w :
  let params := parseQueryString QS_CONFIG (search loc) in
  let previous :=
    {| page := page params - 1; page_size := page_size params;
       order_by := order_by params |} in
  let url := pathname loc +:+ "?" +:+ encodeNonDefaultQueryString QS_CONFIG previous in
  let o := (adjustPagination backend h loc w).1 in
  let w' := (adjustPagination backend h loc w).2 in
  o = Resolved tt
  ∧ (if decide (1 < page params
                ∧ length (selected h) = length (credentials (viewModel h)))
     then
       pushed (history w') = url :: pushed (history w)
       ∧ location (history w') = parsePath url
       ∧ parseQueryString QS_CONFIG (encodeNonDefaultQueryString QS_CONFIG previous)
         = previous
       ∧ (lacks "?"%char (pathname loc) = true →
          parseQueryString QS_CONFIG (search (location (history w'))) = previous)
       ∧ sentBy (adjustPagination backend h loc) w = []
       ∧ hooks w' = hooks w ∧ server w' = server w
     else
       w' = (fetchCredentials backend loc w).2
       ∧ history w' = history w
       ∧ call <$> sentBy (adjustPagination backend h loc) w = [Read params; ReadOptions])
  ∧ ((deleteCredentials backend h w).1 = Resolved tt →
     handleDelete backend h loc w =
     (Resolved tt,
      (setSelected [] (adjustPagination backend h loc (deleteCredentials backend h w).2).2).2)).
Proof.
  intros params previous url o w'.
  split; [apply adjustPagination_resolves|]. split.
  - unfold w', sentBy, adjustPagination. fold params.
    change (replaceParams params _) with previous. fold url.
    destruct (decide _) as [[Hpage Hlen]|Hno].
    + apply Z.ltb_lt in Hpage as ->. apply Nat.eqb_eq in Hlen as ->.
      cbn [andb history_push snd history pushed location hooks server log].
      repeat split.
      * apply parse_encode.
      * intros Hpath. now apply parse_search.
      * apply drop_all.
    + assert ((1 <? page params)
              && (length (selected h) =? length (credentials (viewModel h)))%nat = false)
        as ->.
      { apply not_true_is_false. rewrite andb_true_iff, Z.ltb_lt, Nat.eqb_eq. tauto. }
      cbn [detached snd]. split; [done|]. split.
      * apply fetchCredentials_history.
      * apply sentBy_fetchCredentials.
  - intros Hok. rewrite handleDelete_run.
    destruct (deleteCredentials backend h w) as [[[]|e] w1]; [done|discriminate].
Qed.

(** C2: a deletion that fails leaves the selection as it was.  When one of
    the delete requests fails [deleteCredentials] fails; [handleDelete]
    then stops where [deleteCredentials] stopped, so the selection is the
    one before and nothing was pushed or fetched.  The selection is
    emptied only when [deleteCredentials] resolved. *)
Theorem handleDelete_failure_keeps_selection h loc w :
  let deleting := deleteCredentials backend h w in
  let whole := handleDelete backend h loc w in
  ((∃ x, x ∈ sentBy (deleteCredentials backend h) w ∧ succeeded x = false) →
     ∃ e, deleting.1 = Rejected e)
  ∧ (∀ e, deleting.1 = Rejected e →
       whole = deleting
       ∧ whole.1 = Rejected e
       ∧ selected (hooks whole.2) = selected (hooks w)
       ∧ history whole.2 = history w)
  ∧ (deleting.1 = Resolved tt →
       whole.1 = Resolved tt ∧ selected (hooks whole.2) = []).
Proof.
  intros deleting whole. split; [|split].
  - intros Hfail. now apply deleteCredentials_rejects_on_failure.
  - intros e He. unfold whole. rewrite handleDelete_run. fold deleting.
    assert (Hsel : selected (hooks deleting.2) = selected (hooks w)
                   ∧ history deleting.2 = history w).
    { unfold deleting. rewrite deleteCredentials_run. now destruct (firstError _). }
    destruct deleting as [[[]|e'] w1]; [discriminate|]. cbn in *. now inversion He.
  - intros Hok. unfold whole. rewrite handleDelete_run. fold deleting.
    destruct deleting as [[[]|e'] w1]; [done|discriminate].
Qed.

End Workflows.

(** ** The claims on the sample data *)

Example loaded_example :
  let w := loaded twoStore "/credentials" EmptyString [] in
  credentials (viewModel (hooks w)) = [credA; credB]
  ∧ credentialCount (viewModel (hooks w)) = 2
  ∧ call <$> log w = [Read {| page := 1; page_size := 20; order_by := "name" |}; ReadOptions]
  ∧ canAdd (hooks w) = true.
Proof. vm_compute. repeat split. Qed.

Lemma query_round_trip_witness :
  let d := {| page := 3; page_size := 50; order_by := "-created & modified" |} in
  valid d
  ∧ encodeNonDefaultQueryString QS_CONFIG d
    = "page=3&page_size=50&order_by=-created%20%26%20modified"
  ∧ parseQueryString QS_CONFIG (encodeNonDefaultQueryString QS_CONFIG d) = d.
Proof.
  intros d.
  assert (Hd : valid d) by (unfold valid; cbn; lia).
  split; [exact Hd|]. split; [vm_compute; reflexivity|].
  apply (query_round_trip d Hd).
Defined.

Lemma isAllSelected_by_size_witness :
  let w := loaded sampleStore "/credentials" EmptyString [credA] in
  let all := (dispatch (λ h _, handleSelectAll h true) w).2 in
  let less := (dispatch (λ h _, handleSelect h credB) all).2 in
  credB ∈ credentials (viewModel (hooks w))
  ∧ isAllSelected (hooks w) = false
  ∧ isAllSelected (hooks all) = true
  ∧ isAllSelected (hooks less) = false.
Proof.
  intros w all less.
  assert (Hrow : credB ∈ credentials (viewModel (hooks w))).
  { change (credentials (viewModel (hooks w))) with [credA; credB; credC]. set_solver. }
  destruct (isAllSelected_by_size w credB) as (_ & _ & Hsel).
  destruct (Hsel Hrow) as (_ & Hall & _ & Hless).
  split; [exact Hrow|]. split; [reflexivity|]. split; [exact Hall | exact Hless].
Defined.

Lemma canAdd_iff_POST_witness :
  let may := hooks (loaded sampleStore "/credentials" EmptyString []) in
  let mayNot := hooks (loaded downStore "/credentials" EmptyString []) in
  (∃ verbs, actions (viewModel may) = Some verbs ∧ is_Some (verbs !! "POST"))
  ∧ canAdd may = true
  ∧ actions (viewModel mayNot) = Some ∅
  ∧ canAdd mayNot = false.
Proof.
  intros may mayNot.
  assert (Hpost : ∃ verbs, actions (viewModel may) = Some verbs ∧ is_Some (verbs !! "POST")).
  { exists {[ "POST" := "create" ]}. split; [reflexivity|]. now rewrite lookup_singleton_eq. }
  assert (Hnone : actions (viewModel mayNot) = Some ∅) by reflexivity.
  split; [exact Hpost|]. split; [|split; [exact Hnone|]].
  - apply (canAdd_iff_POST may). exact Hpost.
  - apply (canAdd_iff_POST mayNot). exact Hnone.
Defined.

Lemma handleSelect_toggles_by_id_witness :
  let w := loaded sampleStore "/credentials" EmptyString [credA; credB] in
  let renamed := {| id := 2; name := "renamed" |} in
  (∃ s, s ∈ selected (hooks w) ∧ id s = id renamed)
  ∧ selectedAfter (handleSelect (hooks w) renamed) w = [credA]
  ∧ (∀ s, s ∈ selected (hooks w) → id s ≠ id credC)
  ∧ selectedAfter (handleSelect (hooks w) credC) w = [credA; credB; credC].
Proof.
  intros w renamed.
  assert (Hin : ∃ s, s ∈ selected (hooks w) ∧ id s = id renamed).
  { exists credB. split; [|reflexivity].
    change (selected (hooks w)) with [credA; credB]. set_solver. }
  assert (Hout : ∀ s, s ∈ selected (hooks w) → id s ≠ id credC).
  { intros s. change (selected (hooks w)) with [credA; credB].
    intros [->|[->|[]%elem_of_nil]%elem_of_cons]%elem_of_cons; discriminate. }
  destruct (handleSelect_toggles_by_id (hooks w) renamed w) as (Hremove & _).
  destruct (handleSelect_toggles_by_id (hooks w) credC w) as (_ & Hadd & _).
  split; [exact Hin|]. split; [|split; [exact Hout|]].
  - rewrite (proj1 (Hremove Hin)). reflexivity.
  - rewrite (Hadd Hout). reflexivity.
Defined.

Lemma handleSelect_twice_witness :
  let w := loaded sampleStore "/credentials" EmptyString [credA; credB] in
  let once := (dispatch (λ h _, handleSelect h credB) w).2 in
  let twice := (dispatch (λ h _, handleSelect h credB) once).2 in
  NoDup (id <$> selected (hooks w))
  ∧ selected (hooks once) = [credA]
  ∧ list_to_set (id <$> selected (hooks twice)) =@{gset Z}
      list_to_set (id <$> selected (hooks w)).
Proof.
  intros w once twice.
  assert (Hnd : NoDup (id <$> selected (hooks w))).
  { change (id <$> selected (hooks w)) with [1; 2].
    apply (bool_decide_unpack _). vm_compute. exact I. }
  split; [exact Hnd|]. split; [reflexivity|].
  exact (proj1 (handleSelect_twice w credB Hnd)).
Defined.

Lemma adjustPagination_policy_witness :
  let w := loaded sampleStore "/credentials" "?page=3&page_size=1" [credC] in
  let h := hooks w in
  let loc := location (history w) in
  let w' := (adjustPagination storeBackend h loc w).2 in
  lacks "?"%char (pathname loc) = true
  ∧ (deleteCredentials storeBackend h w).1 = Resolved tt
  ∧ pushed (history w') = ["/credentials?page=2&page_size=1"]
  ∧ parseQueryString QS_CONFIG (search (location (history w')))
    = {| page := 2; page_size := 1; order_by := "name" |}
  ∧ handleDelete storeBackend h loc w =
    (Resolved tt,
     (setSelected []
        (adjustPagination storeBackend h loc (deleteCredentials storeBackend h w).2).2).2).
Proof.
  intros w h loc w'.
  assert (Hpath : lacks "?"%char (pathname loc) = true) by reflexivity.
  assert (Hok : (deleteCredentials storeBackend h w).1 = Resolved tt) by (vm_compute; reflexivity).
  destruct (adjustPagination_policy storeBackend h loc w) as (_ & Hbranch & Hdelete).
  split; [exact Hpath|]. split; [exact Hok|].
  destruct (decide _) as [_|Hno] in Hbranch.
  - destruct Hbranch as (Hpushed & _ & _ & Hsearch & _). unfold w'.
    split; [rewrite Hpushed; vm_compute; reflexivity|].
    split; [rewrite (Hsearch Hpath); vm_compute; reflexivity|].
    exact (Hdelete Hok).
  - exfalso. apply Hno. vm_compute. split; reflexivity.
Defined.

Lemma handleDelete_failure_keeps_selection_witness :
  let w := loaded sampleStore "/credentials" EmptyString [credA; credB] in
  let h := hooks w in
  let loc := location (history w) in
  let whole := handleDelete storeBackend h loc w in
  (∃ x, x ∈ sentBy (deleteCredentials storeBackend h) w ∧ succeeded x = false)
  ∧ (deleteCredentials storeBackend h w).1 = Rejected "Forbidden"
  ∧ whole.1 = Rejected "Forbidden"
  ∧ selected (hooks whole.2) = [credA; credB].
Proof.
  intros w h loc whole.
  assert (Hfail : ∃ x, x ∈ sentBy (deleteCredentials storeBackend h) w ∧ succeeded x = false).
  { exists {| call := Destroy 2; succeeded := false |}. split; [|reflexivity].
    change (sentBy (deleteCredentials storeBackend h) w)
      with [ {| call := Destroy 1; succeeded := true |};
             {| call := Destroy 2; succeeded := false |} ].
    set_solver. }
  assert (Hrejected : (deleteCredentials storeBackend h w).1 = Rejected "Forbidden")
    by (vm_compute; reflexivity).
  destruct (handleDelete_failure_keeps_selection storeBackend h loc w) as (Hany & Hkeep & _).
  destruct (Hany Hfail) as [e He].
  destruct (Hkeep e He) as (_ & Hout & Hsel & _).
  split; [exact Hfail|]. split; [exact Hrejected|]. split.
  - fold whole in Hout. rewrite Hout. rewrite <- He. exact Hrejected.
  - exact Hsel.
Defined.

Lemma fetchCredentials_failure_witness :
  let w := mount downStore "/credentials" EmptyString in
  let loc := location (history w) in
  let w' := (fetchCredentials storeBackend loc w).2 in
  (∃ e, serveRead storeBackend (parseQueryString QS_CONFIG (search loc)) (server w) = inl e)
  ∧ ∃ e, (fetchCredentials storeBackend loc w).1 = Rejected e
      ∧ contentError (hooks w') = Some e
      ∧ viewModel (hooks w') = {| credentials := []; credentialCount := 0; actions := Some ∅ |}.
Proof.
  intros w loc w'.
  assert (Hread : ∃ e, serveRead storeBackend (parseQueryString QS_CONFIG (search loc)) (server w)
                       = inl e).
  { exists "Service Unavailable"%string. reflexivity. }
  split; [exact Hread|].
  destruct (fetchCredentials_failure storeBackend loc w (or_introl Hread))
    as (e & Hout & _ & Herr & _ & Hfirst & _).
  exists e. split; [exact Hout|]. split; [exact Herr|]. exact (Hfirst eq_refl).
Defined.

Lemma deleteCredentials_all_or_nothing_witness :
  let w := loaded sampleStore "/credentials" EmptyString [credA; credB] in
  let h := hooks w in
  let w' := (deleteCredentials storeBackend h w).2 in
  (deleteCredentials storeBackend h w).1 = Rejected "Forbidden"
  ∧ call <$> sentBy (deleteCredentials storeBackend h) w = [Destroy 1; Destroy 2]
  ∧ deletionError (hooks w') = Some "Forbidden"%string
  ∧ result (deletion (hooks w')) = None
  ∧ stored (server w') = [credB; credC].
Proof.
  intros w h w'.
  assert (Hrejected : (deleteCredentials storeBackend h w).1 = Rejected "Forbidden")
    by (vm_compute; reflexivity).
  destruct (deleteCredentials_all_or_nothing storeBackend h w)
    as (Hsent & _ & _ & Hreason & Hserver & _).
  destruct (Hreason _ Hrejected) as (_ & Herr & Hres).
  split; [exact Hrejected|]. split; [exact Hsent|]. split; [exact Herr|].
  unfold w'. split; [rewrite Hres; reflexivity|].
  rewrite Hserver. vm_compute. reflexivity.
Defined.

(** The end-to-end example of the spec: the empty query string, two
    credentials loaded and selected, both deleted, the current page fetched
    again and the selection emptied. *)
Example end_to_end :
  let w := loaded twoStore "/credentials" EmptyString [] in
  let selecting := (dispatch (λ h _, handleSelectAll h true) w).2 in
  let deleting := dispatch (handleDelete storeBackend) selecting in
  let first := {| page := 1; page_size := 20; order_by := "name" |} in
  parseQueryString QS_CONFIG EmptyString = first
  ∧ selected (hooks selecting) = [credA; credB]
  ∧ deleting.1 = Resolved tt
  ∧ call <$> log deleting.2
    = [Read first; ReadOptions; Destroy 1; Destroy 2; Read first; ReadOptions]
  ∧ pushed (history deleting.2) = []
  ∧ credentials (viewModel (hooks deleting.2)) = []
  ∧ credentialCount (viewModel (hooks deleting.2)) = 0
  ∧ selected (hooks deleting.2) = [].
Proof. vm_compute. repeat split. Qed.

(** A deletion that fails half-way: the first credential is gone from the
    server, the screen still shows and selects both. *)
Example partial_deletion :
  let w := loaded sampleStore "/credentials" EmptyString [credA; credB] in
  let deleting := dispatch (handleDelete storeBackend) w in
  let shown := (dispatch (λ h _, deletionErrorEffect h) deleting.2).2 in
  deleting.1 = Rejected "Forbidden"
  ∧ stored (server deleting.2) = [credB; credC]
  ∧ credentials (viewModel (hooks deleting.2)) = [credA; credB; credC]
  ∧ selected (hooks deleting.2) = [credA; credB]
  ∧ showDeletionError (hooks shown) = true.
Proof. vm_compute. repeat split. Qed.

(** ** Rows, clicks and the selection *)

Section Rows.

Context {Server : Type}.
Implicit Types (w : World Server) (h : Hooks) (row item s : Credential)
  (sel loaded : list Credential).

Lemma click_selected c w :
  selected (hooks (click c w).2)
  = applyClick (credentials (viewModel (hooks w))) (selected (hooks w)) c.
Proof.
  destruct c as [row|checked]; unfold click, dispatch; cbn [applyClick].
  - apply (handleSelect_selected (hooks w) row w).
  - reflexivity.
Qed.

Lemma click_viewModel c w : viewModel (hooks (click c w).2) = viewModel (hooks w).
Proof.
  destruct c as [row|checked]; unfold click, dispatch, handleSelect; [|done].
  now destruct (existsb _ _).
Qed.

Lemma clicks_viewModel cs w : viewModel (hooks (clicks cs w)) = viewModel (hooks w).
Proof.
  revert w. induction cs as [|c cs IH]; intros w; [done|].
  cbn [clicks foldl]. fold (clicks cs (click c w).2). now rewrite IH, click_viewModel.
Qed.

Lemma clicks_selected cs w :
  selected (hooks (clicks cs w))
  = foldl (applyClick (credentials (viewModel (hooks w)))) (selected (hooks w)) cs.
Proof.
  revert w. induction cs as [|c cs IH]; intros w; [done|].
  cbn [clicks foldl]. fold (clicks cs (click c w).2).
  now rewrite IH, click_viewModel, click_selected.
Qed.

(** Whether an entry of [item]'s id is in the selection once [row] is
    toggled. *)
Lemma existsb_toggle row item sel :
  existsb (λ s, id s =? id item) (toggle row sel)
  = if decide (id item = id row)
    then negb (existsb (λ s, id s =? id item) sel)
    else existsb (λ s, id s =? id item) sel.
Proof.
  unfold toggle. destruct (decide (id item = id row)) as [Heq|Hne].
  - rewrite Heq. destruct (existsb _ sel) eqn:Hex; cbn [negb].
    + apply existsb_other_id. now intros s [Hs _]%list_elem_of_filter.
    + rewrite existsb_app. cbn [existsb]. now rewrite Hex, Z.eqb_refl.
  - destruct (existsb (λ s, id s =? id row) sel).
    + apply eq_true_iff_eq. rewrite !existsb_same_id.
      split; intros (s & Hs & Hid); exists s; split; try done.
      * now apply list_elem_of_filter in Hs as [_ Hs].
      * apply list_elem_of_filter. split; [congruence | done].
    + rewrite existsb_app. cbn [existsb].
      assert ((id row =? id item) = false) as -> by (apply Z.eqb_neq; congruence).
      now rewrite !orb_false_r.
Qed.

(** X1: a click on a row flips the check mark of the rows of its id and of
    no other row. *)
Theorem row_click_flips_isSelected w row item :
  let h' := hooks (click (ClickRow row) w).2 in
  (id item = id row →
     isSelected (renderItem h' item) = negb (isSelected (renderItem (hooks w) item)))
  ∧ (id item ≠ id row →
     isSelected (renderItem h' item) = isSelected (renderItem (hooks w) item)).
Proof.
  intros h'. unfold h', renderItem. cbn [isSelected].
  rewrite click_selected. cbn [applyClick]. rewrite existsb_toggle.
  split; intros H; now destruct (decide _).
Qed.

(** X2: once the select-all box is checked every row of the list is
    checked, and once it is unchecked no row is, whether it is in the list
    or not. *)
Theorem select_all_checks_rows w item :
  let h := hooks w in
  (item ∈ credentials (viewModel h) →
     isSelected (renderItem (hooks (click (ClickSelectAll true) w).2) item) = true)
  ∧ isSelected (renderItem (hooks (click (ClickSelectAll false) w).2) item) = false
  ∧ Forall (λ r, isSelected r = true) (rows (hooks (click (ClickSelectAll true) w).2)).
Proof.
  intros h. split; [|split].
  - intros Hitem. unfold renderItem. cbn [isSelected]. rewrite click_selected.
    cbn [applyClick]. apply existsb_same_id. eauto.
  - reflexivity.
  - unfold rows. rewrite click_viewModel. apply Forall_fmap, Forall_forall.
    intros c Hc. unfold renderItem. cbn [isSelected]. rewrite click_selected.
    cbn [applyClick]. apply existsb_same_id. eauto.
Qed.

Lemma toggle_NoDup row sel : NoDup (id <$> sel) → NoDup (id <$> toggle row sel).
Proof.
  intros Hnd. unfold toggle. destruct (existsb _ sel) eqn:Hex.
  - eapply sublist_NoDup; [exact Hnd|]. apply fmap_sublist, sublist_filter.
  - rewrite fmap_app. apply NoDup_app. split; [done|]. split; [|apply NoDup_singleton].
    intros i (s & -> & Hs)%list_elem_of_fmap Hid%list_elem_of_singleton.
    rewrite existsb_other_id in Hex. now apply (Hex s).
Qed.

Lemma toggle_subseteq row sel loaded :
  row ∈ loaded → sel ⊆ loaded → toggle row sel ⊆ loaded.
Proof.
  intros Hrow Hsub. unfold toggle. destruct (existsb _ sel).
  - intros s [_ Hs]%list_elem_of_filter. now apply Hsub.
  - intros s [Hs|Hs]%elem_of_app; [now apply Hsub|].
    apply list_elem_of_singleton in Hs. now subst.
Qed.

Lemma applyClick_consistent loaded sel c :
  NoDup (id <$> loaded) → onLoaded loaded c →
  NoDup (id <$> sel) ∧ sel ⊆ loaded →
  NoDup (id <$> applyClick loaded sel c) ∧ applyClick loaded sel c ⊆ loaded.
Proof.
  intros Hloaded Hc [Hnd Hsub]. destruct c as [row|[]]; cbn [applyClick onLoaded] in *.
  - split; [now apply toggle_NoDup | now apply toggle_subseteq].
  - done.
  - split; [constructor | intros s []%elem_of_nil].
Qed.

(** X3: the selection stays consistent with the list under clicks.  When
    the loaded credentials have distinct ids and the selection names loaded
    credentials, each id once, this is still so after any sequence of clicks
    on rows of the list and on the select-all box; the list itself is not
    changed by them. *)
Theorem clicks_keep_selection_consistent cs w :
  consistent (hooks w) →
  Forall (onLoaded (credentials (viewModel (hooks w)))) cs →
  consistent (hooks (clicks cs w))
  ∧ viewModel (hooks (clicks cs w)) = viewModel (hooks w).
Proof.
  intros (Hloaded & Hnd & Hsub) Hcs. split; [|apply clicks_viewModel].
  unfold consistent. rewrite clicks_viewModel, clicks_selected.
  split; [done|].
  revert Hnd Hsub. generalize (selected (hooks w)) as sel.
  induction Hcs as [|c cs Hc Hcs IH]; intros sel Hnd Hsub; [done|].
  cbn [foldl].
  destruct (applyClick_consistent _ sel c Hloaded Hc (conj Hnd Hsub)) as [Hnd' Hsub'].
  now apply IH.
Qed.

Lemma consistent_lengths h :
  consistent h → (length (selected h) ≤ length (credentials (viewModel h)))%nat.
Proof.
  intros (_ & Hnd & Hsub). apply submseteq_length, NoDup_submseteq; [|done].
  now apply NoDup_fmap_1 in Hnd.
Qed.

Lemma isAllSelected_true h :
  isAllSelected h = true ↔
  selected h ≠ [] ∧ length (selected h) = length (credentials (viewModel h)).
Proof.
  unfold isAllSelected. rewrite andb_true_iff, Nat.ltb_lt, Nat.eqb_eq.
  destruct (selected h); cbn [length]; split; intros []; split; (done || lia).
Qed.

(** X4: while the selection is consistent with the list, the comparison of
    sizes in [isAllSelected] is a comparison of contents: the flag is true
    exactly when the list is not empty and the selection is the list up to
    order, and exactly when there is a row and every row is checked. *)
Theorem isAllSelected_means_every_row h :
  consistent h →
  (isAllSelected h = true ↔
     credentials (viewModel h) ≠ [] ∧ selected h ≡ₚ credentials (viewModel h))
  ∧ (isAllSelected h = true ↔
       rows h ≠ [] ∧ Forall (λ r, isSelected r = true) (rows h)).
Proof.
  intros Hcons. pose proof (consistent_lengths h Hcons) as Hle.
  destruct Hcons as (Hloaded & Hnd & Hsub).
  assert (Hperm : isAllSelected h = true ↔
            credentials (viewModel h) ≠ [] ∧ selected h ≡ₚ credentials (viewModel h)).
  { rewrite isAllSelected_true. split.
    - intros [Hne Hlen]. split.
      + intros Hnil. rewrite Hnil in Hlen. now destruct (selected h).
      + apply submseteq_length_Permutation; [|lia].
        apply NoDup_submseteq; [now apply NoDup_fmap_1 in Hnd | done].
    - intros [Hne Hp]. split; [|now apply Permutation_length].
      intros Hnil. rewrite Hnil in Hp. apply Permutation_nil in Hp. now apply Hne. }
  split; [exact Hperm|]. unfold rows. rewrite Forall_fmap. split.
  - intros [Hne Hp]%Hperm. split; [now destruct (credentials (viewModel h))|].
    apply Forall_forall. intros c Hc. cbn. apply existsb_same_id.
    exists c. split; [now rewrite Hp | done].
  - intros [Hne Hall]. apply isAllSelected_true.
    assert (Hge : (length (credentials (viewModel h)) ≤ length (selected h))%nat).
    { rewrite <- (length_fmap id (credentials _)), <- (length_fmap id (selected h)).
      apply submseteq_length, NoDup_submseteq; [done|].
      intros i (c & -> & Hc)%list_elem_of_fmap.
      rewrite Forall_forall in Hall. specialize (Hall c Hc). cbn in Hall.
      apply existsb_same_id in Hall as (s & Hs & <-). now apply list_elem_of_fmap_2. }
    split; [|lia]. intros Hnil. rewrite Hnil in Hge.
    destruct (credentials (viewModel h)); [done | cbn in Hge; lia].
Qed.

(** X5: a selection left over from another page counts as all selected.
    When the selection is not empty, has the size of the list and shares no
    id with it, [isAllSelected] is true although no row is checked. *)
Theorem stale_selection_counts_as_all h :
  selected h ≠ [] →
  length (selected h) = length (credentials (viewModel h)) →
  (∀ s c, s ∈ selected h → c ∈ credentials (viewModel h) → id s ≠ id c) →
  isAllSelected h = true ∧ Forall (λ r, isSelected r = false) (rows h).
Proof.
  intros Hne Hlen Hdisjoint. split; [now apply isAllSelected_true|].
  unfold rows. apply Forall_fmap, Forall_forall. intros c Hc. cbn.
  apply existsb_other_id. intros s Hs. now apply Hdisjoint.
Qed.

Lemma toggle_present row sel :
  existsb (λ s, id s =? id row) sel = true →
  toggle row sel = filter (λ s, id s ≠ id row) sel.
Proof. unfold toggle. now intros ->. Qed.

Lemma toggle_absent row sel :
  existsb (λ s, id s =? id row) sel = false → toggle row sel = sel ++ [row].
Proof. unfold toggle. now intros ->. Qed.

Lemma existsb_toggle_other row item sel :
  id item ≠ id row →
  existsb (λ s, id s =? id item) (toggle row sel) = existsb (λ s, id s =? id item) sel.
Proof. intros Hne. rewrite existsb_toggle. now destruct (decide _). Qed.

Lemma toggle_toggle_other a b sel :
  id a ≠ id b →
  toggle b (toggle a sel) ≡ₚ toggle a (toggle b sel)
  ∧ (existsb (λ s, id s =? id a) sel || existsb (λ s, id s =? id b) sel = true →
     toggle b (toggle a sel) = toggle a (toggle b sel)).
Proof.
  intros Hab.
  destruct (existsb (λ s, id s =? id a) sel) eqn:Ha;
    destruct (existsb (λ s, id s =? id b) sel) eqn:Hb.
  - assert (Heq : toggle b (toggle a sel) = toggle a (toggle b sel)).
    { rewrite (toggle_present b), (toggle_present a (toggle b sel))
        by (rewrite existsb_toggle_other; congruence).
      rewrite !toggle_present by done. rewrite !list_filter_filter.
      apply list_filter_iff. tauto. }
    now rewrite Heq.
  - assert (Heq : toggle b (toggle a sel) = toggle a (toggle b sel)).
    { rewrite (toggle_absent b), (toggle_present a (toggle b sel))
        by (rewrite existsb_toggle_other; congruence).
      rewrite (toggle_present a sel), (toggle_absent b sel) by done.
      rewrite filter_app, filter_cons_True by congruence. now rewrite filter_nil. }
    now rewrite Heq.
  - assert (Heq : toggle b (toggle a sel) = toggle a (toggle b sel)).
    { rewrite (toggle_present b), (toggle_absent a (toggle b sel))
        by (rewrite existsb_toggle_other; congruence).
      rewrite (toggle_absent a sel), (toggle_present b sel) by done.
      rewrite filter_app, filter_cons_True by congruence. now rewrite filter_nil. }
    now rewrite Heq.
  - split; [|discriminate].
    rewrite (toggle_absent b), (toggle_absent a (toggle b sel))
      by (rewrite existsb_toggle_other; congruence).
    rewrite !toggle_absent by done. rewrite <- !app_assoc.
    apply Permutation_app_head, Permutation_swap.
Qed.

(** X6: clicks on two rows of different ids can be made in either order:
    the selections differ by the order of their entries at most, and not at
    all when one of the two rows was checked before. *)
Theorem row_clicks_commute w a b :
  id a ≠ id b →
  selected (hooks (clicks [ClickRow a; ClickRow b] w))
    ≡ₚ selected (hooks (clicks [ClickRow b; ClickRow a] w))
  ∧ (isSelected (renderItem (hooks w) a) || isSelected (renderItem (hooks w) b) = true →
     selected (hooks (clicks [ClickRow a; ClickRow b] w))
     = selected (hooks (clicks [ClickRow b; ClickRow a] w))).
Proof.
  intros Hab. rewrite !clicks_selected. cbn [foldl applyClick renderItem isSelected].
  now apply toggle_toggle_other.
Qed.

Lemma toggle_length row sel :
  (existsb (λ s, id s =? id row) sel = false → length (toggle row sel) = S (length sel))
  ∧ (existsb (λ s, id s =? id row) sel = true → NoDup (id <$> sel) →
     S (length (toggle row sel)) = length sel).
Proof.
  split.
  - intros Hex. rewrite toggle_absent by done. rewrite length_app. cbn. lia.
  - intros Hex Hnd. rewrite toggle_present by done.
    pose proof (ids_remove_add row sel Hnd (proj1 (existsb_same_id row sel) Hex)) as Hp.
    apply Permutation_length in Hp. rewrite !length_fmap, length_app in Hp. cbn in Hp. lia.
Qed.

(** X7: a click on a row changes the size of the selection by one.  It
    grows by one when the row was not checked; when it was checked and the
    selection has each id once, it shrinks by one. *)
Theorem row_click_changes_size_by_one w row :
  let n := length (selected (hooks w)) in
  let n' := length (selected (hooks (click (ClickRow row) w).2)) in
  (isSelected (renderItem (hooks w) row) = false → n' = S n)
  ∧ (isSelected (renderItem (hooks w) row) = true →
     NoDup (id <$> selected (hooks w)) → S n' = n).
Proof.
  intros n n'. unfold n, n'. rewrite click_selected.
  cbn [applyClick renderItem isSelected]. apply toggle_length.
Qed.

Lemma toggle_twice_ids row sel :
  NoDup (id <$> sel) → id <$> toggle row (toggle row sel) ≡ₚ id <$> sel.
Proof.
  intros Hnd. destruct (existsb (λ s, id s =? id row) sel) eqn:Hex.
  - rewrite (toggle_absent row (toggle row sel)).
    + rewrite toggle_present by done. apply ids_remove_add; [done|].
      now apply existsb_same_id.
    + rewrite existsb_toggle. destruct (decide _); [|done]. now rewrite Hex.
  - rewrite (toggle_present row (toggle row sel)).
    + rewrite toggle_absent by done.
      rewrite filter_app, filter_cons_False, filter_nil, app_nil_r by tauto.
      rewrite filter_other_id; [done|]. now apply existsb_other_id.
    + rewrite existsb_toggle. destruct (decide _); [|done]. now rewrite Hex.
Qed.

(** X8: a second click on the same row undoes the first for what is shown.
    Every row has the check mark it had, and when the selection has each id
    once [isAllSelected] has the value it had. *)
Theorem double_click_restores_view w row :
  let h'' := hooks (clicks [ClickRow row; ClickRow row] w) in
  (∀ item, isSelected (renderItem h'' item) = isSelected (renderItem (hooks w) item))
  ∧ (NoDup (id <$> selected (hooks w)) → isAllSelected h'' = isAllSelected (hooks w)).
Proof.
  intros h''. split.
  - intros item. unfold h'', renderItem. cbn [isSelected].
    rewrite clicks_selected. cbn [foldl applyClick]. rewrite !existsb_toggle.
    destruct (decide _); [|done]. apply negb_involutive.
  - intros Hnd. unfold isAllSelected, h''.
    rewrite clicks_viewModel, clicks_selected. cbn [foldl applyClick].
    pose proof (Permutation_length (toggle_twice_ids row _ Hnd)) as Hlen.
    rewrite !length_fmap in Hlen. now rewrite Hlen.
Qed.

Lemma foldl_toggle_fresh (picked sel : list Credential) :
  NoDup (id <$> picked) →
  (∀ r s, r ∈ picked → s ∈ sel → id s ≠ id r) →
  foldl (λ l r, toggle r l) sel picked = sel ++ picked.
Proof.
  revert sel. induction picked as [|r picked IH]; intros sel Hnd Hfresh.
  - now rewrite app_nil_r.
  - rewrite fmap_cons in Hnd. apply NoDup_cons in Hnd as [Hr Hnd]. cbn [foldl].
    rewrite toggle_absent.
    + rewrite IH; [now rewrite <- app_assoc | done |].
      intros r' s Hr' [Hs|Hs]%elem_of_app.
      * apply Hfresh; [now right | done].
      * apply list_elem_of_singleton in Hs as ->. intros Heq. apply Hr.
        rewrite Heq. now apply list_elem_of_fmap_2.
    + apply existsb_other_id. intros s Hs. apply Hfresh; [left | done].
Qed.

Lemma foldl_toggle_present (picked sel : list Credential) :
  NoDup (id <$> picked) →
  (∀ r, r ∈ picked → existsb (λ s, id s =? id r) sel = true) →
  foldl (λ l r, toggle r l) sel picked = filter (λ s, id s ∉ id <$> picked) sel.
Proof.
  revert sel. induction picked as [|r picked IH]; intros sel Hnd Hin.
  - cbn [foldl fmap list_fmap]. clear. induction sel as [|s sel IHs]; [done|].
    rewrite filter_cons_True by apply not_elem_of_nil. now f_equal.
  - rewrite fmap_cons in Hnd. apply NoDup_cons in Hnd as [Hr Hnd]. cbn [foldl].
    rewrite toggle_present by (apply Hin; left).
    rewrite IH; [|done|].
    + rewrite list_filter_filter. apply list_filter_iff. intros s.
      rewrite fmap_cons, not_elem_of_cons. tauto.
    + intros r' Hr'. rewrite <- (Hin r') by now right.
      apply eq_true_iff_eq. rewrite !existsb_same_id.
      split; intros (s & Hs & Hid); exists s; split; try done.
      * now apply list_elem_of_filter in Hs as [_ Hs].
      * apply list_elem_of_filter. split; [|done]. rewrite Hid. intros Heq.
        apply Hr. rewrite <- Heq. now apply list_elem_of_fmap_2.
Qed.

Lemma foldl_row_clicks (creds picked sel : list Credential) :
  foldl (applyClick creds) sel (ClickRow <$> picked) = foldl (λ l r, toggle r l) sel picked.
Proof. revert sel. induction picked as [|r picked IH]; intros sel; [done|]. apply IH. Qed.

Lemma filter_not_in_itself (l : list Credential) :
  filter (λ s, id s ∉ id <$> l) l = [].
Proof.
  generalize (id <$> l) (λ s, list_elem_of_fmap_2 id l s). intros ids Hids.
  induction l as [|s l IH]; [done|].
  rewrite filter_cons_False by (intros Hnot; apply Hnot, Hids; left).
  apply IH. intros x Hx. apply Hids. now right.
Qed.

(** X9: clicking the rows of the list one after the other does what the
    select-all box does.  When the loaded credentials have distinct ids,
    clicking every row in turn from an empty selection selects the list as
    checking the box does, and from the whole list selected it empties the
    selection as unchecking the box does. *)
Theorem clicking_every_row_is_select_all w :
  let loaded := credentials (viewModel (hooks w)) in
  let after := selected (hooks (clicks (ClickRow <$> loaded) w)) in
  NoDup (id <$> loaded) →
  (selected (hooks w) = [] →
     after = loaded ∧ after = selected (hooks (click (ClickSelectAll true) w).2))
  ∧ (selected (hooks w) = loaded →
     after = [] ∧ after = selected (hooks (click (ClickSelectAll false) w).2)).
Proof.
  intros loaded after Hnd.
  assert (Hfold : after = foldl (λ l r, toggle r l) (selected (hooks w)) loaded).
  { unfold after. rewrite clicks_selected. apply foldl_row_clicks. }
  rewrite Hfold. split; intros Hsel; rewrite Hsel.
  - rewrite foldl_toggle_fresh.
    + split; [done|]. now rewrite click_selected.
    + done.
    + intros r s _ []%elem_of_nil.
  - rewrite foldl_toggle_present.
    + rewrite click_selected. cbn [applyClick]. split; apply filter_not_in_itself.
    + done.
    + intros r Hr. apply existsb_same_id. eauto.
Qed.

End Rows.

(** ** Links, requests and navigation *)

Section Links.

Lemma lacks_slash_uint (d : Decimal.uint) :
  lacks "/"%char (NilEmpty.string_of_uint d) = true.
Proof. induction d; cbn [NilEmpty.string_of_uint lacks]; rewrite ?IHd; reflexivity. Qed.

Lemma lacks_slash_showInt (z : Z) : lacks "/"%char (showInt z) = true.
Proof.
  unfold showInt.
  assert (Hu : ∀ d, lacks "/"%char (NilZero.string_of_uint d) = true).
  { intros d. destruct d; try apply lacks_slash_uint. reflexivity. }
  destruct (Z.to_int z) as [d|d]; cbn [NilZero.string_of_int lacks]; now rewrite Hu.
Qed.

Lemma showInt_inj (a b : Z) : showInt a = showInt b → a = b.
Proof.
  intros Heq. apply (f_equal parseInt) in Heq.
  rewrite !parseInt_showInt in Heq. now injection Heq.
Qed.

Lemma append_inv_head (s t1 t2 : string) : s +:+ t1 = s +:+ t2 → t1 = t2.
Proof.
  induction s as [|c s IH]; [done|]. rewrite !app_String. intros [= H]. now apply IH.
Qed.

(** X10: the detail link of a row names its credential.  Two rows have the
    same [detailUrl] exactly when their credentials have the same id,
    whatever the selection, and the [key] of a row is that id. *)
Theorem detailUrl_names_the_id (h h' : Hooks) (a b : Credential) :
  (detailUrl (renderItem h a) = detailUrl (renderItem h' b) ↔ id a = id b)
  ∧ key (renderItem h a) = id a.
Proof.
  split; [|done]. cbn [renderItem detailUrl]. split.
  - intros Heq. apply append_inv_head in Heq.
    apply (f_equal (cut "/"%char)) in Heq.
    change "/details"%string with (String "/"%char "details") in Heq.
    rewrite !cut_app in Heq by apply lacks_slash_showInt.
    injection Heq as Heq. now apply showInt_inj.
  - now intros ->.
Qed.

End Links.

Section Requests.

Context {Server : Type} (backend : Backend Server).
Implicit Types (w : World Server) (h : Hooks) (loc : Location).



(** X12: [handleDelete] deletes first and fetches after.  It sends one
    delete request for each entry of the selection of its render; only when
    the deletion resolved and it does not go back a page do the two reads
    follow, and nothing follows a deletion that failed.  The server is left
    as the delete requests left it. *)
Theorem handleDelete_deletes_then_fetches h loc w :
  let params := parseQueryString QS_CONFIG (search loc) in
  let ids := id <$> selected h in
  call <$> sentBy (handleDelete backend h loc) w
  = (Destroy <$> ids)
    ++ match (deleteCredentials backend h w).1 with
       | Resolved _ =>
           if (1 <? page params)
              && (length (selected h) =? length (credentials (viewModel h)))%nat
           then [] else [Read params; ReadOptions]
       | Rejected _ => []
       end
  ∧ server (handleDelete backend h loc w).2 = (destroyAll backend ids (server w)).2.
Proof.
  intros params ids.
  pose proof (destroyAll_length backend ids (server w)) as Hlen.
  unfold sentBy. rewrite handleDelete_run, deleteCredentials_run. fold ids.
  destruct (firstError _) as [e|]; cbn [fst snd].
  - cbn [log setDeletion withHooks afterDestroy server].
    rewrite drop_app_length, app_nil_r. split; [now apply zip_destroyed_calls | done].
  - unfold adjustPagination. fold params.
    destruct ((1 <? page params) && _).
    + cbn [history_push snd setSelected withHooks log setDeletion afterDestroy server].
      rewrite drop_app_length, app_nil_r. split; [now apply zip_destroyed_calls | done].
    + cbn [detached snd]. rewrite fetchCredentials_run. fold params.
      destruct (bothReads _ _ _);
        cbn [snd setSelected setListing withHooks log setDeletion afterDestroy server];
        rewrite <- app_assoc, drop_app_length, fmap_app;
        (split; [f_equal; now apply zip_destroyed_calls | done]).
Qed.

Lemma cons_ne {A} (x : A) (l : list A) : x :: l ≠ l.
Proof.
  intros Heq. apply (f_equal length) in Heq. cbn in Heq. lia.
Qed.

(** X13: on a consistent selection the screen goes back a page exactly when
    the whole page was selected.  [adjustPagination] pushes a URL if and
    only if the page decoded from the location is greater than 1 and the
    selection is the loaded list up to order; otherwise the history is as it
    was. *)
Theorem goes_back_when_whole_page_selected h loc w :
  let params := parseQueryString QS_CONFIG (search loc) in
  let w' := (adjustPagination backend h loc w).2 in
  consistent h →
  (pushed (history w') ≠ pushed (history w) ↔
     1 < page params ∧ selected h ≡ₚ credentials (viewModel h))
  ∧ (pushed (history w') = pushed (history w) → history w' = history w).
Proof.
  intros params w' Hcons.
  pose proof (consistent_lengths h Hcons) as Hle.
  destruct Hcons as (Hloaded & Hnd & Hsub).
  assert (Hsame : length (selected h) = length (credentials (viewModel h)) ↔
                  selected h ≡ₚ credentials (viewModel h)).
  { split; [|apply Permutation_length]. intros Hlen.
    apply submseteq_length_Permutation; [|lia].
    apply NoDup_submseteq; [now apply NoDup_fmap_1 in Hnd | done]. }
  unfold w', adjustPagination. fold params.
  destruct ((1 <? page params)
            && (length (selected h) =? length (credentials (viewModel h)))%nat) eqn:Hcond.
  - apply andb_true_iff in Hcond as [Hpage%Z.ltb_lt Hlen%Nat.eqb_eq].
    cbn [history_push snd history pushed]. split.
    + split; [intros _; split; [done | now apply Hsame] | intros _; apply cons_ne].
    + intros Heq. now apply cons_ne in Heq.
  - cbn [detached snd]. rewrite fetchCredentials_history. split; [|done].
    split; [done|]. intros [Hpage Hperm]. exfalso.
    apply andb_false_iff in Hcond as [Hno%Z.ltb_ge | Hno%Nat.eqb_neq]; [lia|].
    now apply Hno, Hsame.
Qed.

End Requests.

(** ** The further properties on the sample data *)

Ltac in_list := repeat first [apply list_elem_of_here | apply list_elem_of_further].

Ltac within_list :=
  let x := fresh in let Hx := fresh in
  intros x Hx; revert x Hx; apply Forall_forall; repeat constructor; in_list.

Lemma sample_consistent (query : string) (sel : list Credential) :
  let h := hooks (loaded sampleStore "/credentials" query sel) in
  NoDup (id <$> credentials (viewModel h)) →
  NoDup (id <$> sel) →
  sel ⊆ credentials (viewModel h) →
  consistent h.
Proof. intros h H1 H2 H3. split; [exact H1|]. split; [exact H2 | exact H3]. Defined.

Lemma row_click_flips_isSelected_witness :
  let w := loaded sampleStore "/credentials" EmptyString [credA] in
  let h' := hooks (click (ClickRow credB) w).2 in
  let renamed := {| id := 2; name := "renamed" |} in
  id renamed = id credB
  ∧ isSelected (renderItem h' renamed) = true
  ∧ id credA ≠ id credB
  ∧ isSelected (renderItem h' credA) = true.
Proof.
  intros w h' renamed.
  assert (Hsame : id renamed = id credB) by reflexivity.
  assert (Hother : id credA ≠ id credB) by discriminate.
  destruct (row_click_flips_isSelected w credB renamed) as [Hflip _].
  destruct (row_click_flips_isSelected w credB credA) as [_ Hkeep].
  split; [exact Hsame|]. split; [|split; [exact Hother|]].
  - fold h' in Hflip. rewrite (Hflip Hsame). reflexivity.
  - fold h' in Hkeep. rewrite (Hkeep Hother). reflexivity.
Defined.

Lemma select_all_checks_rows_witness :
  let w := loaded sampleStore "/credentials" EmptyString [] in
  credB ∈ credentials (viewModel (hooks w))
  ∧ isSelected (renderItem (hooks (click (ClickSelectAll true) w).2) credB) = true.
Proof.
  intros w.
  assert (Hin : credB ∈ credentials (viewModel (hooks w))).
  { change (credentials (viewModel (hooks w))) with [credA; credB; credC]. in_list. }
  split; [exact Hin|]. exact (proj1 (select_all_checks_rows w credB) Hin).
Defined.

Lemma clicks_keep_selection_consistent_witness :
  let w := loaded sampleStore "/credentials" EmptyString [credA] in
  let cs := [ClickRow credB; ClickSelectAll true; ClickRow credA] in
  consistent (hooks w)
  ∧ Forall (onLoaded (credentials (viewModel (hooks w)))) cs
  ∧ selected (hooks (clicks cs w)) = [credB; credC]
  ∧ consistent (hooks (clicks cs w)).
Proof.
  intros w cs.
  assert (Hcons : consistent (hooks w)).
  { apply (sample_consistent EmptyString [credA]).
    - apply (bool_decide_unpack _). vm_compute. exact I.
    - apply (bool_decide_unpack _). vm_compute. exact I.
    - change (credentials (viewModel _)) with [credA; credB; credC]. within_list. }
  assert (Hcs : Forall (onLoaded (credentials (viewModel (hooks w)))) cs).
  { change (credentials (viewModel (hooks w))) with [credA; credB; credC].
    repeat constructor; cbn [onLoaded]; in_list. }
  split; [exact Hcons|]. split; [exact Hcs|]. split; [reflexivity|].
  exact (proj1 (clicks_keep_selection_consistent cs w Hcons Hcs)).
Defined.

Lemma isAllSelected_means_every_row_witness :
  let h := hooks (loaded sampleStore "/credentials" EmptyString [credC; credA; credB]) in
  consistent h
  ∧ isAllSelected h = true
  ∧ selected h ≡ₚ credentials (viewModel h)
  ∧ Forall (λ r, isSelected r = true) (rows h).
Proof.
  intros h.
  assert (Hcons : consistent h).
  { apply (sample_consistent EmptyString [credC; credA; credB]).
    - apply (bool_decide_unpack _). vm_compute. exact I.
    - apply (bool_decide_unpack _). vm_compute. exact I.
    - change (credentials (viewModel _)) with [credA; credB; credC]. within_list. }
  assert (Hall : isAllSelected h = true) by reflexivity.
  destruct (isAllSelected_means_every_row h Hcons) as [Hperm Hrows].
  split; [exact Hcons|]. split; [exact Hall|].
  split; [exact (proj2 (proj1 Hperm Hall)) | exact (proj2 (proj1 Hrows Hall))].
Defined.

Lemma stale_selection_counts_as_all_witness :
  let h := hooks (loaded sampleStore "/credentials" "?page=2&page_size=1" [credA]) in
  credentials (viewModel h) = [credB]
  ∧ selected h ≠ []
  ∧ isAllSelected h = true
  ∧ Forall (λ r, isSelected r = false) (rows h).
Proof.
  intros h.
  assert (Hpage : credentials (viewModel h) = [credB]) by (vm_compute; reflexivity).
  assert (Hne : selected h ≠ []) by discriminate.
  assert (Hlen : length (selected h) = length (credentials (viewModel h))).
  { rewrite Hpage. reflexivity. }
  assert (Hdisjoint : ∀ s c, s ∈ selected h → c ∈ credentials (viewModel h) → id s ≠ id c).
  { intros s c. rewrite Hpage. change (selected h) with [credA].
    intros ->%list_elem_of_singleton ->%list_elem_of_singleton. discriminate. }
  split; [exact Hpage|]. split; [exact Hne|].
  exact (stale_selection_counts_as_all h Hne Hlen Hdisjoint).
Defined.

Lemma row_clicks_commute_witness :
  let w := loaded sampleStore "/credentials" EmptyString [credA; credB] in
  id credB ≠ id credC
  ∧ isSelected (renderItem (hooks w) credB) || isSelected (renderItem (hooks w) credC) = true
  ∧ selected (hooks (clicks [ClickRow credB; ClickRow credC] w)) = [credA; credC]
  ∧ selected (hooks (clicks [ClickRow credB; ClickRow credC] w))
    = selected (hooks (clicks [ClickRow credC; ClickRow credB] w)).
Proof.
  intros w.
  assert (Hne : id credB ≠ id credC) by discriminate.
  assert (Hone : isSelected (renderItem (hooks w) credB)
                 || isSelected (renderItem (hooks w) credC) = true) by reflexivity.
  split; [exact Hne|]. split; [exact Hone|]. split; [reflexivity|].
  exact (proj2 (row_clicks_commute w credB credC Hne) Hone).
Defined.

Lemma row_click_changes_size_by_one_witness :
  let w := loaded sampleStore "/credentials" EmptyString [credA; credB] in
  isSelected (renderItem (hooks w) credB) = true
  ∧ NoDup (id <$> selected (hooks w))
  ∧ S (length (selected (hooks (click (ClickRow credB) w).2))) = length (selected (hooks w))
  ∧ isSelected (renderItem (hooks w) credC) = false
  ∧ length (selected (hooks (click (ClickRow credC) w).2)) = S (length (selected (hooks w))).
Proof.
  intros w.
  assert (Hin : isSelected (renderItem (hooks w) credB) = true) by reflexivity.
  assert (Hout : isSelected (renderItem (hooks w) credC) = false) by reflexivity.
  assert (Hnd : NoDup (id <$> selected (hooks w))).
  { apply (bool_decide_unpack _). vm_compute. exact I. }
  split; [exact Hin|]. split; [exact Hnd|].
  split; [exact (proj2 (row_click_changes_size_by_one w credB) Hin Hnd)|].
  split; [exact Hout | exact (proj1 (row_click_changes_size_by_one w credC) Hout)].
Defined.

Lemma double_click_restores_view_witness :
  let w := loaded sampleStore "/credentials" EmptyString [credA; credB; credC] in
  let h'' := hooks (clicks [ClickRow credB; ClickRow credB] w) in
  NoDup (id <$> selected (hooks w))
  ∧ selected h'' = [credA; credC; credB]
  ∧ isAllSelected h'' = isAllSelected (hooks w).
Proof.
  intros w h''.
  assert (Hnd : NoDup (id <$> selected (hooks w))).
  { apply (bool_decide_unpack _). vm_compute. exact I. }
  split; [exact Hnd|]. split; [reflexivity|].
  exact (proj2 (double_click_restores_view w credB) Hnd).
Defined.

Lemma clicking_every_row_is_select_all_witness :
  let w := loaded sampleStore "/credentials" EmptyString [] in
  let loaded := credentials (viewModel (hooks w)) in
  NoDup (id <$> loaded)
  ∧ selected (hooks w) = []
  ∧ selected (hooks (clicks (ClickRow <$> loaded) w)) = [credA; credB; credC].
Proof.
  intros w loaded.
  assert (Hnd : NoDup (id <$> loaded)).
  { apply (bool_decide_unpack _). vm_compute. exact I. }
  assert (Hnone : selected (hooks w) = []) by reflexivity.
  split; [exact Hnd|]. split; [exact Hnone|].
  exact (proj1 (proj1 (clicking_every_row_is_select_all w Hnd) Hnone)).
Defined.


Lemma goes_back_when_whole_page_selected_witness :
  let w := loaded sampleStore "/credentials" "?page=3&page_size=1" [credC] in
  let h := hooks w in
  let loc := location (history w) in
  consistent h
  ∧ 1 < page (parseQueryString QS_CONFIG (search loc))
  ∧ selected h ≡ₚ credentials (viewModel h)
  ∧ pushed (history (adjustPagination storeBackend h loc w).2) ≠ pushed (history w).
Proof.
  intros w h loc.
  assert (Hcons : consistent h).
  { apply (sample_consistent "?page=3&page_size=1" [credC]).
    - apply (bool_decide_unpack _). vm_compute. exact I.
    - apply (bool_decide_unpack _). vm_compute. exact I.
    - assert (credentials (viewModel (hooks (loaded sampleStore "/credentials"
                "?page=3&page_size=1" [credC]))) = [credC]) as -> by (vm_compute; reflexivity).
      within_list. }
  assert (Hpage : 1 < page (parseQueryString QS_CONFIG (search loc))) by (vm_compute; reflexivity).
  assert (Hperm : selected h ≡ₚ credentials (viewModel h)).
  { assert (credentials (viewModel h) = [credC]) as -> by (vm_compute; reflexivity).
    reflexivity. }
  split; [exact Hcons|]. split; [exact Hpage|]. split; [exact Hperm|].
  exact (proj2 (proj1 (goes_back_when_whole_page_selected storeBackend h loc w Hcons))
           (conj Hpage Hperm)).
Defined.
